(** * Vehicle dynamics simulator (scripts/vehicle_simulator.py)

    A shallow embedding of [VehicleSimulator] and the properties its
    specification states about the integration sub-step, the actuator lag
    and the heading wrap.

    Numbers: the script is Python 2.  Its [float] values are modelled as
    real numbers ([R]), so every statement below is about the exact
    arithmetic of the formulas, not about rounding.  Its [int] values are
    modelled as [Z]; in Python 2 the operator [/] between two [int]s is
    floor division, between a [float] and an [int] it is real division. *)

From Stdlib Require Import Reals ZArith Lra Lia Psatz List.
Import ListNotations.

Local Open Scope R_scope.

(** ** The Python and numpy primitives the script calls *)

Module Py.

(** [math.fabs] *)
Definition fabs (x : R) : R := Rabs x.

(** [max(a, b)]: the first argument unless the second is greater. *)
Definition max (a b : R) : R := if Rlt_dec a b then b else a.

(** [a / b] on two [int]s (Python 2, no [from __future__ import division]). *)
Definition int_div (a b : Z) : Z := (a / b)%Z.

(** [a % b] on floats: [a - b * floor(a / b)], the sign of the divisor. *)
Definition fmod (a b : R) : R := a - b * IZR (Int_part (a / b)).

(** [np.arctan2(y, x)], the angle of the point [(x, y)] in [(-pi, pi]]. *)
Definition arctan2 (y x : R) : R :=
  if Rlt_dec 0 x then atan (y / x)
  else if Rlt_dec x 0 then
    (if Rle_dec 0 y then atan (y / x) + PI else atan (y / x) - PI)
  else
    (if Rlt_dec 0 y then PI / 2
     else if Rlt_dec y 0 then - (PI / 2)
     else 0).

End Py.

(** ** State of the simulator object *)

Record VehicleSimulator : Type := mkSim {
  tcmd     : option R;  (* rostime (s) of received acc command, None at start *)
  acc      : R;         (* actual acceleration (m/s^2) *)
  df       : R;         (* actual steering angle (rad) *)
  acc_des  : R;         (* desired acceleration (m/s^2) *)
  df_des   : R;         (* desired steering angle (rad) *)
  dt_model : R;         (* vehicle model update period (s) *)
  hz       : Z;
  X        : R;
  Y        : R;
  psi      : R;
  vx       : R;
  vy       : R;
  wz       : R
}.

(** [__init__], given the values of the parameters X0, Y0 and Psi0. *)
Definition init (X0 Y0 Psi0 : R) : VehicleSimulator :=
  {| tcmd := None; acc := 0.0; df := 0.0; acc_des := 0.0; df_des := 0.0;
     dt_model := 0.01; hz := 100;
     X := X0; Y := Y0; psi := Psi0; vx := 0.0; vy := 0.0; wz := 0.0 |}.

(** [__init__] with the defaults of [rospy.get_param]. *)
Definition init_default : VehicleSimulator := init (-300.0) (-450.0) 1.0.

(** [_mpc_cmd_callback]: [now] is [rospy.Time.now()]. *)
Definition _mpc_cmd_callback (s : VehicleSimulator) (now accel_cmd steer_angle_cmd : R)
  : VehicleSimulator :=
  {| tcmd := Some now; acc := acc s; df := df s;
     acc_des := accel_cmd; df_des := steer_angle_cmd;
     dt_model := dt_model s; hz := hz s;
     X := X s; Y := Y s; psi := psi s; vx := vx s; vy := vy s; wz := wz s |}.

(** ** Vehicle parameters (local constants of [_update_vehicle_model]) *)

Definition lf : R := 1.152.
Definition lr : R := 1.693.
Definition d  : R := 0.8125.
Definition m  : Z := 1840.
Definition Iz : Z := 3477.
Definition C_alpha_f : R := 4.0703e4.
Definition C_alpha_r : R := 6.4495e4.

(** ** [_update_low_level_control] *)

Definition _update_low_level_control (s : VehicleSimulator) (dt_control : R)
  : VehicleSimulator :=
  let acc' := 5.0 * (acc_des s - acc s) * dt_control + acc s in
  let df'  := 5.0 * (df_des s - df s) * dt_control + df s in
  {| tcmd := tcmd s; acc := acc'; df := df';
     acc_des := acc_des s; df_des := df_des s;
     dt_model := dt_model s; hz := hz s;
     X := X s; Y := Y s; psi := psi s; vx := vx s; vy := vy s; wz := wz s |}.

(** ** The body of the loop of [_update_vehicle_model] *)

(** Tire slip angles [(alpha_f, alpha_r)]. *)
Definition slip_angles (s : VehicleSimulator) : R * R :=
  if Rlt_dec 1e-6 (Py.fabs (vx s)) then
    (df s - Py.arctan2 (vy s + lf * wz s) (vx s),
     - Py.arctan2 (vy s - lf * wz s) (vx s))
  else (0.0, 0.0).

(** Lateral forces [(Fyf, Fyr)] at the front and rear tire. *)
Definition tire_forces (s : VehicleSimulator) : R * R :=
  let '(alpha_f, alpha_r) := slip_angles s in
  (C_alpha_f * alpha_f, C_alpha_r * alpha_r).

(** [vx_n]; [1/m] is a division of two [int]s. *)
Definition next_vx (s : VehicleSimulator) (deltaT : R) : R :=
  let Fyf := fst (tire_forces s) in
  Py.max 0.0 (vx s + deltaT * (acc s - IZR (Py.int_div 1 m) * Fyf * sin (df s) + wz s * vy s)).

(** [(vy_n, wz_n)]; [1.0/m] and [1.0/Iz] are float divisions. *)
Definition next_vy_wz (s : VehicleSimulator) (deltaT vx_n : R) : R * R :=
  let '(Fyf, Fyr) := tire_forces s in
  if Rlt_dec 1e-6 vx_n then
    (vy s + deltaT * (1.0 / IZR m * (Fyf * cos (df s) + Fyr) - wz s * vx s),
     wz s + deltaT * (1.0 / IZR Iz * (lf * Fyf * cos (df s) - lr * Fyr)))
  else (0.0, 0.0).

(** The heading wrap of the commit. *)
Definition wrap (theta : R) : R := Py.fmod (theta + PI) (2.0 * PI) - PI.

(** The vehicle part of one pass of the loop (before the lag update). *)
Definition propagate (s : VehicleSimulator) (deltaT : R) : VehicleSimulator :=
  let vx_n := next_vx s deltaT in
  let '(vy_n, wz_n) := next_vy_wz s deltaT vx_n in
  let psi_n := psi s + deltaT * wz s in
  let X_n := X s + deltaT * (vx s * cos (psi s) - vy s * sin (psi s)) in
  let Y_n := Y s + deltaT * (vx s * sin (psi s) + vy s * cos (psi s)) in
  {| tcmd := tcmd s; acc := acc s; df := df s;
     acc_des := acc_des s; df_des := df_des s;
     dt_model := dt_model s; hz := hz s;
     X := X_n; Y := Y_n; psi := wrap psi_n;
     vx := vx_n; vy := vy_n; wz := wz_n |}.

(** One pass of the loop: propagate, commit, then the actuator lag. *)
Definition sub_step (s : VehicleSimulator) (deltaT : R) : VehicleSimulator :=
  _update_low_level_control (propagate s deltaT) deltaT.

(** [n] passes of the loop with the same [deltaT]. *)
Fixpoint sub_steps (n : nat) (s : VehicleSimulator) (deltaT : R) : VehicleSimulator :=
  match n with
  | O => s
  | S k => sub_steps k (sub_step s deltaT) deltaT
  end.

(** [_update_vehicle_model(disc_steps)].  [dt_model / disc_steps] raises
    ZeroDivisionError for [disc_steps = 0] ([None]); [range] of a negative
    number is empty. *)
Definition _update_vehicle_model (s : VehicleSimulator) (disc_steps : Z)
  : option VehicleSimulator :=
  if (disc_steps =? 0)%Z then None
  else
    let deltaT := dt_model s / IZR disc_steps in
    Some (sub_steps (Z.to_nat disc_steps) s deltaT).

(** One tick of [pub_loop]: the update with the default [disc_steps = 10]. *)
Definition tick (s : VehicleSimulator) : option VehicleSimulator :=
  _update_vehicle_model s 10.

(** ** Reachable states

    The states the running simulator goes through, at the grain of one pass
    of the loop: [pub_loop] calls the update with its default ten passes of
    [dt_model / 10] seconds, and the command callback may run between any
    two of them. *)

Inductive reachable : VehicleSimulator -> Prop :=
| reach_init : forall X0 Y0 Psi0, reachable (init X0 Y0 Psi0)
| reach_cmd : forall s now a dlt,
    reachable s -> reachable (_mpc_cmd_callback s now a dlt)
| reach_step : forall s,
    reachable s -> reachable (sub_step s (dt_model s / 10)).

(** ** Specified formulas, scenarios and invariants used below *)

(** The formula of the specification for the next forward speed: the front
    lateral force enters through [Fyf * sin df / m] with the mass as a real
    divisor. *)
Definition spec_next_vx (s : VehicleSimulator) (deltaT : R) : R :=
  let Fyf := fst (tire_forces s) in
  Rmax 0 (vx s + deltaT * (acc s - Fyf * sin (df s) / 1840 + wz s * vy s)).

(** A vehicle driving straight at 10 m/s with the wheel turned by 0.1 rad. *)
Definition turning : VehicleSimulator :=
  {| tcmd := Some 0; acc := 0.0; df := 0.1; acc_des := 0.0; df_des := 0.1;
     dt_model := 0.01; hz := 100;
     X := 0.0; Y := 0.0; psi := 0.0; vx := 10.0; vy := 0.0; wz := 0.0 |}.

(** The tire force model as the specification words it: a function of the
    four values [vx, vy, wz, df], with the guard stated on the near-rest
    side. *)
Definition spec_tire_forces (vx0 vy0 wz0 df0 : R) : R * R :=
  let alpha_f :=
    if Rle_dec (Rabs vx0) 1e-6 then 0
    else df0 - Py.arctan2 (vy0 + lf * wz0) vx0 in
  let alpha_r :=
    if Rle_dec (Rabs vx0) 1e-6 then 0
    else - Py.arctan2 (vy0 - lf * wz0) vx0 in
  (C_alpha_f * alpha_f, C_alpha_r * alpha_r).

(** The command pair (1.0, 0.0) received by a simulator that has just
    started at the origin. *)
Definition commanded : VehicleSimulator :=
  _mpc_cmd_callback (init 0 0 0) 0 1.0 0.0.

(** A stopped vehicle whose actuators do not push it forward. *)
Definition at_rest (s : VehicleSimulator) : Prop :=
  vx s = 0 /\ vy s = 0 /\ wz s = 0 /\ acc_des s = 0
  /\ acc s <= 0 /\ - PI <= psi s < PI.

(** Driving straight ahead along the x axis: no lateral state, wheel
    centred, accelerating between 0 and the commanded 1 m/s^2. *)
Definition straight (s : VehicleSimulator) : Prop :=
  Y s = 0 /\ psi s = 0 /\ vy s = 0 /\ wz s = 0 /\ df s = 0
  /\ df_des s = 0 /\ acc_des s = 1 /\ 0 <= acc s <= 1 /\ 0 <= vx s.

(** ** [pub_loop]: the published message *)

Module Msg.

(** The fields of a [state_est] message that [pub_loop] fills in. *)
Record state_est : Type := mk {
  stamp : R;
  x     : R;
  y     : R;
  psi   : R;
  v     : R;
  a     : R;
  df    : R
}.

End Msg.

(** One pass of the [while] loop of [pub_loop]: update the model (default
    [disc_steps]), then fill the message from the updated object; [now] is
    [rospy.Time.now()].  The message is what [state_pub.publish] sends. *)
Definition pub_loop_body (s : VehicleSimulator) (now : R)
  : option (VehicleSimulator * Msg.state_est) :=
  match _update_vehicle_model s 10 with
  | None => None
  | Some s' =>
      Some (s', {| Msg.stamp := now;
                   Msg.x := X s'; Msg.y := Y s'; Msg.psi := psi s';
                   Msg.v := vx s'; Msg.a := acc s'; Msg.df := df s' |})
  end.

(** * The analysis script (scripts/analysis/plot_path_tracking_error.py)

    Arrays are lists; a row of an [n x 2] array of points is a pair.  An
    array entry that still holds the [nan] it was created with is [None]. *)

Module Np.

(** The scan of [np.argmin]: [best] is the index of the smallest value
    [bv] seen so far, [i] the index of the head of [l]; a later value wins
    only if it is strictly smaller, so the first minimum is returned. *)
Fixpoint argmin_from (best : nat) (bv : R) (i : nat) (l : list R) : nat :=
  match l with
  | [] => best
  | x0 :: tl =>
      if Rlt_dec x0 bv then argmin_from i x0 (S i) tl
      else argmin_from best bv (S i) tl
  end.

(** [np.argmin] of a one-dimensional array; ValueError ([None]) when it is
    empty. *)
Definition argmin (l : list R) : option nat :=
  match l with
  | [] => None
  | x0 :: tl => Some (argmin_from 0 x0 1 tl)
  end.

(** The Euclidean distance of two points, the metric of [ssd.cdist]. *)
Definition euclidean (p q : R * R) : R :=
  sqrt ((fst p - fst q) ^ 2 + (snd p - snd q) ^ 2).

(** [ssd.cdist(XA, XB)]: the matrix, as a list of rows, of the distances
    from each point of [XA] to each point of [XB]. *)
Definition cdist (XA XB : list (R * R)) : list (list R) :=
  map (fun p => map (fun q => euclidean p q) XB) XA.

(** Column [j] of a matrix. *)
Definition column (M : list (list R)) (j : nat) : list R :=
  map (fun row => nth j row 0) M.

(** [np.argmin(M, axis=0)] for a matrix with [k] columns: the row index of
    the first minimum of each column; ValueError when there is no row. *)
Fixpoint argmin_axis0_from (M : list (list R)) (j k : nat) : option (list nat) :=
  match k with
  | O => Some []
  | S k' =>
      match argmin (column M j), argmin_axis0_from M (S j) k' with
      | Some i, Some rest => Some (i :: rest)
      | _, _ => None
      end
  end.

Definition argmin_axis0 (M : list (list R)) (k : nat) : option (list nat) :=
  argmin_axis0_from M 0 k.

(** [M[rows, np.arange(k)]]: entry [(rows[j], j)] for each column [j]. *)
Definition take_per_column (M : list (list R)) (rows : list nat) : list R :=
  map (fun ij => nth (snd ij) (nth (fst ij) M []) 0)
      (combine rows (seq 0 (length rows))).

(** [np.arange(0, n, step)] for a positive [step]. *)
Definition arange0 (n step : nat) : list nat :=
  map (fun c => c * step)%nat (seq 0 ((n + step - 1) / step)).

(** [arr[st:st + len(vals)] = vals] *)
Definition assign_slice {A : Type} (arr : list A) (st : nat) (vals : list A)
  : list A :=
  firstn st arr ++ vals ++ skipn (st + length vals) arr.

(** [arr[st:en]] *)
Definition slice {A : Type} (arr : list A) (st en : nat) : list A :=
  firstn (en - st) (skipn st arr).

End Np.

Module PathError.

(** One pass of the loop of [compute_path_s] for the index [i]. *)
Definition path_s_step (xy_arr : list (R * R)) (cdists : list R) (i : nat)
  : list R :=
  if Nat.eqb i 0 then cdists ++ [0.0]
  else
    let dx := fst (nth i xy_arr (0, 0)) - fst (nth (i - 1) xy_arr (0, 0)) in
    let dy := snd (nth i xy_arr (0, 0)) - snd (nth (i - 1) xy_arr (0, 0)) in
    let d := sqrt (dx ^ 2 + dy ^ 2) + last cdists 0 in
    cdists ++ [d].

(** [compute_path_s]: the cumulative distance along the path. *)
Definition compute_path_s (xy_arr : list (R * R)) : list R :=
  fold_left (path_s_step xy_arr) (seq 0 (length xy_arr)) [].

(** The running sums that [compute_path_s] appends after the entry
    [s_prev] of the point [prev], by recursion on the remaining points. *)
Fixpoint cumulative (prev : R * R) (s_prev : R) (rest : list (R * R))
  : list R :=
  match rest with
  | [] => []
  | p :: tl =>
      let d := Np.euclidean p prev + s_prev in
      d :: cumulative p d tl
  end.

(** The chunk size of [compute_path_errors]. *)
Definition chunk : nat := 1000.

(** One pass of the loop of [compute_path_errors] for the start index
    [st_ind], on the arrays [errors] and [closest_pt_ind]. *)
Definition path_errors_step (xy_ref xy_actual : list (R * R))
    (state : option (list (option R) * list (option nat))) (st_ind : nat)
  : option (list (option R) * list (option nat)) :=
  match state with
  | None => None
  | Some (errors, closest_pt_ind) =>
      let end_ind := Nat.min (length xy_actual) (st_ind + chunk) in
      let dist := Np.cdist xy_ref (Np.slice xy_actual st_ind end_ind) in
      match Np.argmin_axis0 dist (end_ind - st_ind) with
      | None => None
      | Some idx =>
          let closest' := Np.assign_slice closest_pt_ind st_ind (map Some idx) in
          let errors' :=
            Np.assign_slice errors st_ind
              (map Some (Np.take_per_column dist idx)) in
          Some (errors', closest')
      end
  end.

(** [compute_path_errors]: for each followed point the distance to the
    closest reference point and the index of that point. *)
Definition compute_path_errors (xy_ref xy_actual : list (R * R))
  : option (list (option R) * list (option nat)) :=
  let n := length xy_actual in
  fold_left (path_errors_step xy_ref xy_actual) (Np.arange0 n chunk)
            (Some (repeat None n, repeat None n)).

(** The index of the reference point closest to [q], as [np.argmin]
    finds it in the column of distances to [q] ([0] for no reference
    point, where [np.argmin] fails). *)
Definition nearest (xy_ref : list (R * R)) (q : R * R) : nat :=
  match Np.argmin (map (fun p => Np.euclidean p q) xy_ref) with
  | Some i => i
  | None => 0%nat
  end.

(** The body of the loop of [fix_heading] for the entry [p]. *)
Definition fix_heading_entry (p : R) : R :=
  let psi_cands_arr := [p; p + 2 * PI; p - 2 * PI] in
  match Np.argmin (map Rabs psi_cands_arr) with
  | Some best_cand => nth best_cand psi_cands_arr 0
  | None => 0
  end.

(** [fix_heading]: every entry is replaced in place, independently of the
    others; the result is the array it was given. *)
Definition fix_heading (psi_arr : list R) : list R :=
  map fix_heading_entry psi_arr.

(** The yaw error of [get_errors]: [fix_heading] had already rewritten
    [p_pr] and [p_pf] in place for the earlier plot when
    [fix_heading(p_pr[closest_ind_xy] - p_pf)] is evaluated. *)
Definition yaw_errors (p_pr p_pf : list R) (closest_ind_xy : list nat)
  : list R :=
  let p_pr' := fix_heading p_pr in
  let p_pf' := fix_heading p_pf in
  fix_heading
    (map (fun ab => fst ab - snd ab)
         (combine (map (fun i => nth i p_pr' 0) closest_ind_xy) p_pf')).

End PathError.

(** The arrays after the entries before [st] have been written: computed
    values first, then the [nan] they were created with. *)
Definition filled {A B : Type} (h : A -> B) (act : list A) (st : nat)
  : list (option B) :=
  map Some (map h (firstn st act)) ++ repeat None (length act - st).

(** ** What one pass of the loop writes into each field *)

Section Fields.

Variable s : VehicleSimulator.
Variable deltaT : R.

Lemma propagate_X :
  X (propagate s deltaT)
  = X s + deltaT * (vx s * cos (psi s) - vy s * sin (psi s)).
Proof. unfold propagate. destruct (next_vy_wz _ _ _). reflexivity. Qed.

Lemma propagate_Y :
  Y (propagate s deltaT)
  = Y s + deltaT * (vx s * sin (psi s) + vy s * cos (psi s)).
Proof. unfold propagate. destruct (next_vy_wz _ _ _). reflexivity. Qed.

Lemma propagate_psi :
  psi (propagate s deltaT) = wrap (psi s + deltaT * wz s).
Proof. unfold propagate. destruct (next_vy_wz _ _ _). reflexivity. Qed.

Lemma propagate_vx : vx (propagate s deltaT) = next_vx s deltaT.
Proof. unfold propagate. destruct (next_vy_wz _ _ _). reflexivity. Qed.

Lemma propagate_vy :
  vy (propagate s deltaT) = fst (next_vy_wz s deltaT (next_vx s deltaT)).
Proof. unfold propagate. destruct (next_vy_wz _ _ _). reflexivity. Qed.

Lemma propagate_wz :
  wz (propagate s deltaT) = snd (next_vy_wz s deltaT (next_vx s deltaT)).
Proof. unfold propagate. destruct (next_vy_wz _ _ _). reflexivity. Qed.

Lemma propagate_actuation :
  acc (propagate s deltaT) = acc s /\ df (propagate s deltaT) = df s.
Proof. unfold propagate. destruct (next_vy_wz _ _ _). split; reflexivity. Qed.

Lemma propagate_frame :
  acc_des (propagate s deltaT) = acc_des s
  /\ df_des (propagate s deltaT) = df_des s
  /\ tcmd (propagate s deltaT) = tcmd s
  /\ dt_model (propagate s deltaT) = dt_model s
  /\ hz (propagate s deltaT) = hz s.
Proof. unfold propagate. destruct (next_vy_wz _ _ _). repeat split. Qed.

Lemma sub_step_X :
  X (sub_step s deltaT)
  = X s + deltaT * (vx s * cos (psi s) - vy s * sin (psi s)).
Proof. unfold sub_step. simpl. apply propagate_X. Qed.

Lemma sub_step_Y :
  Y (sub_step s deltaT)
  = Y s + deltaT * (vx s * sin (psi s) + vy s * cos (psi s)).
Proof. unfold sub_step. simpl. apply propagate_Y. Qed.

Lemma sub_step_psi :
  psi (sub_step s deltaT) = wrap (psi s + deltaT * wz s).
Proof. unfold sub_step. simpl. apply propagate_psi. Qed.

Lemma sub_step_vx : vx (sub_step s deltaT) = next_vx s deltaT.
Proof. unfold sub_step. simpl. apply propagate_vx. Qed.

Lemma sub_step_vy :
  vy (sub_step s deltaT) = fst (next_vy_wz s deltaT (next_vx s deltaT)).
Proof. unfold sub_step. simpl. apply propagate_vy. Qed.

Lemma sub_step_wz :
  wz (sub_step s deltaT) = snd (next_vy_wz s deltaT (next_vx s deltaT)).
Proof. unfold sub_step. simpl. apply propagate_wz. Qed.

Lemma sub_step_acc :
  acc (sub_step s deltaT) = 5.0 * (acc_des s - acc s) * deltaT + acc s.
Proof.
  unfold sub_step. simpl.
  destruct propagate_actuation as [-> _].
  destruct propagate_frame as [-> _]. reflexivity.
Qed.

Lemma sub_step_df :
  df (sub_step s deltaT) = 5.0 * (df_des s - df s) * deltaT + df s.
Proof.
  unfold sub_step. simpl.
  destruct propagate_actuation as [_ ->].
  destruct propagate_frame as [_ [-> _]]. reflexivity.
Qed.

Lemma sub_step_frame :
  acc_des (sub_step s deltaT) = acc_des s
  /\ df_des (sub_step s deltaT) = df_des s
  /\ tcmd (sub_step s deltaT) = tcmd s
  /\ dt_model (sub_step s deltaT) = dt_model s
  /\ hz (sub_step s deltaT) = hz s.
Proof. unfold sub_step. simpl. apply propagate_frame. Qed.

End Fields.

Lemma sub_steps_frame (n : nat) : forall s deltaT,
  acc_des (sub_steps n s deltaT) = acc_des s
  /\ df_des (sub_steps n s deltaT) = df_des s
  /\ tcmd (sub_steps n s deltaT) = tcmd s
  /\ dt_model (sub_steps n s deltaT) = dt_model s
  /\ hz (sub_steps n s deltaT) = hz s.
Proof.
  induction n as [|k IH]; intros s deltaT; simpl.
  - repeat split.
  - destruct (IH (sub_step s deltaT) deltaT) as (-> & -> & -> & -> & ->).
    apply sub_step_frame.
Qed.

(** Stepping once more at the end is the same as stepping first. *)
Lemma sub_steps_snoc (n : nat) : forall s deltaT,
  sub_steps (S n) s deltaT = sub_step (sub_steps n s deltaT) deltaT.
Proof.
  induction n as [|k IH]; intros s deltaT.
  - reflexivity.
  - change (sub_steps (S (S k)) s deltaT)
      with (sub_steps (S k) (sub_step s deltaT) deltaT).
    rewrite IH. reflexivity.
Qed.

(** ** Primitives *)

Lemma max_lower (a b : R) : a <= Py.max a b.
Proof. unfold Py.max. destruct (Rlt_dec a b); lra. Qed.

Lemma max_cases (a b : R) :
  (a < b /\ Py.max a b = b) \/ (b <= a /\ Py.max a b = a).
Proof. unfold Py.max. destruct (Rlt_dec a b); [left | right]; split; lra. Qed.

(** The floating remainder by a positive divisor lies in [[0, b)]. *)
Lemma fmod_range (a b : R) : 0 < b -> 0 <= Py.fmod a b < b.
Proof.
  intros Hb. unfold Py.fmod.
  destruct (base_Int_part (a / b)) as [Hlo Hhi].
  assert (Ha : a = b * (a / b)) by (field; lra).
  set (q := IZR (Int_part (a / b))) in *.
  split; nra.
Qed.

(** On [[0, b)] the remainder is the identity. *)
Lemma fmod_small (a b : R) : 0 <= a < b -> Py.fmod a b = a.
Proof.
  intros [Ha Hab]. unfold Py.fmod.
  assert (Hb : 0 < b) by lra.
  assert (Hq : 0 <= a / b < 1).
  { split.
    - apply Rmult_le_pos; [lra | left; apply Rinv_0_lt_compat; lra].
    - apply (Rmult_lt_reg_r b); [lra |].
      replace (a / b * b) with a by (field; lra). lra. }
  rewrite <- (Int_part_spec (a / b) 0); simpl; lra.
Qed.

Lemma wrap_range (theta : R) : - PI <= wrap theta < PI.
Proof.
  unfold wrap.
  assert (H2 : 0 < 2.0 * PI) by (pose proof PI_RGT_0; lra).
  pose proof (fmod_range (theta + PI) (2.0 * PI) H2). lra.
Qed.

Lemma wrap_id (theta : R) : - PI <= theta < PI -> wrap theta = theta.
Proof.
  intros H. unfold wrap. rewrite fmod_small; lra.
Qed.

Lemma sub_step_psi_range (s : VehicleSimulator) (deltaT : R) :
  psi (sub_step s deltaT) < PI /\ - PI <= psi (sub_step s deltaT).
Proof. rewrite sub_step_psi. pose proof (wrap_range (psi s + deltaT * wz s)). lra. Qed.

Lemma arctan2_0_pos (x : R) : 0 < x -> Py.arctan2 0 x = 0.
Proof.
  intros Hx. unfold Py.arctan2.
  destruct (Rlt_dec 0 x); [| lra].
  replace (0 / x) with 0 by (field; lra). apply atan_0.
Qed.

(** ** Forward speed (sub-step 2) *)

(** [1/m] is [0]: the quotient of the [int]s 1 and 1840. *)
Lemma int_div_1_m : Py.int_div 1 m = 0%Z.
Proof. reflexivity. Qed.

(** What line 84 computes: the front-force term is multiplied by [1/m = 0]
    and drops out. *)
Lemma next_vx_code (s : VehicleSimulator) (deltaT : R) :
  next_vx s deltaT = Py.max 0 (vx s + deltaT * (acc s + wz s * vy s)).
Proof.
  unfold next_vx. rewrite int_div_1_m. f_equal; [lra | ring].
Qed.

Lemma turning_forces : fst (tire_forces turning) = C_alpha_f * 0.1.
Proof.
  unfold tire_forces, slip_angles, turning, Py.fabs; simpl.
  destruct (Rlt_dec 1e-6 (Rabs 10.0)) as [_ | H].
  - simpl. replace (0.0 + lf * 0.0) with 0 by lra.
    rewrite arctan2_0_pos by lra. unfold C_alpha_f. lra.
  - exfalso. apply H. rewrite Rabs_pos_eq; lra.
Qed.

(** C1 (evaluation at the failing input): with the wheel turned, the code
    keeps the forward speed at 10 m/s over a sub-step, while the specified
    formula [max(0, vx + deltaT*(acc - Fyf*sin(df)/m + wz*vy))] gives a
    strictly smaller speed. *)
Theorem C1_next_vx_ignores_front_force :
  next_vx turning 0.001 = 10
  /\ spec_next_vx turning 0.001 < 10
  /\ next_vx turning 0.001 <> spec_next_vx turning 0.001.
Proof.
  assert (Hcode : next_vx turning 0.001 = 10).
  { rewrite next_vx_code. unfold turning; simpl.
    destruct (max_cases 0 (10.0 + 0.001 * (0.0 + 0.0 * 0.0))) as [[_ ->] | [H _]]; lra. }
  assert (Hsin : 0 < sin 0.1).
  { apply sin_gt_0; [lra |]. pose proof PI2_1. lra. }
  assert (Hspec : spec_next_vx turning 0.001 < 10).
  { unfold spec_next_vx. rewrite turning_forces. unfold turning, C_alpha_f; simpl.
    apply Rmax_lub_lt; [lra |]. nra. }
  repeat split; [exact Hcode | exact Hspec | lra].
Qed.

(** C3: in every reachable state the forward speed is non-negative. *)
Theorem C3_vx_nonneg (s : VehicleSimulator) : reachable s -> 0 <= vx s.
Proof.
  induction 1 as [X0 Y0 Psi0 | s now a dlt _ IH | s _ _].
  - simpl. lra.
  - exact IH.
  - rewrite sub_step_vx. unfold next_vx.
    eapply Rle_trans; [| apply max_lower]. lra.
Qed.

Lemma C3_vx_nonneg_witness :
  0 <= vx (sub_step (_mpc_cmd_callback init_default 0 (-3) 0.2)
                    (dt_model (_mpc_cmd_callback init_default 0 (-3) 0.2) / 10)).
Proof.
  apply (C3_vx_nonneg
           (sub_step (_mpc_cmd_callback init_default 0 (-3) 0.2)
                     (dt_model (_mpc_cmd_callback init_default 0 (-3) 0.2) / 10))).
  apply reach_step. apply reach_cmd. apply reach_init.
Defined.

(** ** Heading (sub-step 6) *)

(** C2: every sub-step commits a heading in [[-pi, pi)], whatever the
    heading before it, so does every tick, and the command callback leaves
    the heading alone. *)
Theorem C2_heading_wrapped :
  (forall s deltaT, - PI <= psi (sub_step s deltaT) < PI)
  /\ (forall s, exists s', tick s = Some s' /\ - PI <= psi s' < PI)
  /\ (forall s now a dlt, psi (_mpc_cmd_callback s now a dlt) = psi s).
Proof.
  assert (Hstep : forall s deltaT, - PI <= psi (sub_step s deltaT) < PI).
  { intros s deltaT. rewrite sub_step_psi. apply wrap_range. }
  split; [exact Hstep | split].
  - intros s. unfold tick, _update_vehicle_model.
    change (10 =? 0)%Z with false. cbv iota.
    eexists. split; [reflexivity |].
    change (Z.to_nat 10) with 10%nat.
    rewrite sub_steps_snoc. apply Hstep.
  - reflexivity.
Qed.

(** ** Tire force model (sub-step 1) *)

(** C4: the forces the sub-step computes are the specified function of the
    values [vx, vy, wz, df] at the start of the sub-step, and of nothing
    else in the state. *)
Theorem C4_tire_forces (s : VehicleSimulator) :
  tire_forces s = spec_tire_forces (vx s) (vy s) (wz s) (df s).
Proof.
  unfold tire_forces, slip_angles, spec_tire_forces, Py.fabs.
  destruct (Rlt_dec 1e-6 (Rabs (vx s))) as [Hgt | Hle];
    destruct (Rle_dec (Rabs (vx s)) 1e-6) as [Hle' | Hgt'];
    try lra; try reflexivity.
  f_equal; lra.
Qed.

(** ** Lateral velocity and yaw rate (sub-step 3) *)

(** C5: with [vx_n] the committed forward speed, above the threshold the
    lateral velocity and the yaw rate take an Euler step from the values at
    the start of the sub-step; otherwise both are set to zero. *)
Theorem C5_lateral_and_yaw (s : VehicleSimulator) (deltaT : R) :
  let s' := sub_step s deltaT in
  let Fyf := fst (tire_forces s) in
  let Fyr := snd (tire_forces s) in
  (1e-6 < vx s' ->
     vy s' = vy s + deltaT * ((Fyf * cos (df s) + Fyr) / 1840 - wz s * vx s)
     /\ wz s' = wz s + deltaT * ((lf * Fyf * cos (df s) - lr * Fyr) / 3477))
  /\ (vx s' <= 1e-6 -> vy s' = 0 /\ wz s' = 0).
Proof.
  intros s' Fyf Fyr. subst s'.
  rewrite sub_step_vx, sub_step_vy, sub_step_wz.
  unfold next_vy_wz. subst Fyf Fyr.
  destruct (tire_forces s) as [Fyf Fyr].
  destruct (Rlt_dec 1e-6 (next_vx s deltaT)) as [Hgt | Hle]; simpl.
  - split; [| intros; lra]. intros _.
    unfold m, Iz. replace 1.0 with 1 by lra. split; field.
  - split; [intros; lra |]. intros _. split; lra.
Qed.

Lemma C5_lateral_and_yaw_witness :
  vy (sub_step turning 0.001)
  = vy turning
    + 0.001 * ((fst (tire_forces turning) * cos (df turning)
                + snd (tire_forces turning)) / 1840
               - wz turning * vx turning)
  /\ wz (sub_step turning 0.001)
     = wz turning
       + 0.001 * ((lf * fst (tire_forces turning) * cos (df turning)
                   - lr * snd (tire_forces turning)) / 3477).
Proof.
  apply (C5_lateral_and_yaw turning 0.001).
  rewrite sub_step_vx, next_vx_code. unfold turning; simpl.
  destruct (max_cases 0 (10.0 + 0.001 * (0.0 + 0.0 * 0.0))) as [[_ ->] | [H _]]; lra.
Defined.

(** ** Actuator lag (sub-step 7) *)

(** C6: a sub-step moves the actual actuation by exactly the first-order
    lag, with no clamping; the vehicle fields it ends with are those the
    propagation committed, and the propagation read the actuation from
    before the lag. *)
Theorem C6_actuator_lag (s : VehicleSimulator) (deltaT : R) :
  acc (sub_step s deltaT) = acc s + 5.0 * (acc_des s - acc s) * deltaT
  /\ df (sub_step s deltaT) = df s + 5.0 * (df_des s - df s) * deltaT
  /\ sub_step s deltaT = _update_low_level_control (propagate s deltaT) deltaT
  /\ acc (propagate s deltaT) = acc s
  /\ df (propagate s deltaT) = df s
  /\ (forall t dt, acc (_update_low_level_control t dt)
                   = acc t + 5.0 * (acc_des t - acc t) * dt
                   /\ df (_update_low_level_control t dt)
                      = df t + 5.0 * (df_des t - df t) * dt
                   /\ X (_update_low_level_control t dt) = X t
                   /\ Y (_update_low_level_control t dt) = Y t
                   /\ psi (_update_low_level_control t dt) = psi t
                   /\ vx (_update_low_level_control t dt) = vx t
                   /\ vy (_update_low_level_control t dt) = vy t
                   /\ wz (_update_low_level_control t dt) = wz t).
Proof.
  rewrite sub_step_acc, sub_step_df.
  destruct (propagate_actuation s deltaT) as [Ha Hd].
  repeat split; try assumption; simpl; lra.
Qed.

(** ** Frame of a tick *)

(** C10: the update, for any number of passes it accepts, returns a state
    whose desired commands, command time stamp and model period are those
    it started from: only the vehicle state and the actual actuation are
    written. *)
Theorem C10_update_frame (s : VehicleSimulator) (disc_steps : Z) :
  disc_steps <> 0%Z ->
  exists s', _update_vehicle_model s disc_steps = Some s'
    /\ acc_des s' = acc_des s
    /\ df_des s' = df_des s
    /\ tcmd s' = tcmd s
    /\ dt_model s' = dt_model s
    /\ hz s' = hz s.
Proof.
  intros Hne. unfold _update_vehicle_model.
  destruct (Z.eqb_spec disc_steps 0) as [H0 | _]; [contradiction |].
  eexists. split; [reflexivity |]. apply sub_steps_frame.
Qed.

Lemma C10_update_frame_witness :
  exists s', tick turning = Some s'
    /\ acc_des s' = acc_des turning
    /\ df_des s' = df_des turning
    /\ tcmd s' = tcmd turning
    /\ dt_model s' = dt_model turning
    /\ hz s' = hz turning.
Proof.
  apply (C10_update_frame turning 10). discriminate.
Defined.

(** ** Convergence of the actuator lag *)

(** With the desired commands held, [n] passes scale the actuation errors
    by [(1 - 5 deltaT)^n]. *)
Lemma lag_error_sub_steps (n : nat) : forall s deltaT,
  acc (sub_steps n s deltaT) - acc_des s
    = (acc s - acc_des s) * (1 - 5 * deltaT) ^ n
  /\ df (sub_steps n s deltaT) - df_des s
    = (df s - df_des s) * (1 - 5 * deltaT) ^ n.
Proof.
  induction n as [|k IH]; intros s deltaT.
  - simpl. split; ring.
  - change (sub_steps (S k) s deltaT)
      with (sub_steps k (sub_step s deltaT) deltaT).
    destruct (IH (sub_step s deltaT) deltaT) as [Ha Hd].
    destruct (sub_step_frame s deltaT) as (Ea & Ed & _).
    rewrite Ea in Ha. rewrite Ed in Hd.
    rewrite Ha, Hd, sub_step_acc, sub_step_df.
    replace 5.0 with 5 by lra.
    rewrite <- !tech_pow_Rmult. split; ring.
Qed.

Lemma exp_scal (n : nat) (x : R) : exp (INR n * x) = exp x ^ n.
Proof.
  induction n as [|k IH].
  - simpl. rewrite Rmult_0_l. apply exp_0.
  - rewrite S_INR, Rmult_plus_distr_r, Rmult_1_l, exp_plus, IH.
    simpl. ring.
Qed.

(** The factor of one pass of 1 ms, and its value after one second. *)
Lemma decay_1000 : 0.001 < 0.995 ^ 1000 < 0.00666.
Proof.
  replace 0.995 with (IZR 199 * / IZR 200) by lra.
  rewrite Rpow_mult_distr, pow_inv, !pow_IZR.
  set (a := (199 ^ Z.of_nat 1000)%Z).
  set (b := (200 ^ Z.of_nat 1000)%Z).
  assert (Hb : 0 < IZR b) by (apply IZR_lt; vm_compute; reflexivity).
  assert (Hlo : IZR b < IZR (1000 * a)) by (apply IZR_lt; vm_compute; reflexivity).
  assert (Hhi : IZR (100000 * a) < IZR (666 * b)) by (apply IZR_lt; vm_compute; reflexivity).
  rewrite mult_IZR in Hlo, Hhi. rewrite mult_IZR in Hhi.
  split.
  - apply (Rmult_lt_reg_r (IZR b)); [exact Hb |].
    rewrite Rmult_assoc, Rinv_l by lra. lra.
  - apply (Rmult_lt_reg_r (IZR b)); [exact Hb |].
    rewrite Rmult_assoc, Rinv_l by lra. lra.
Qed.

Lemma decay_after_1000 (n : nat) :
  (1000 <= n)%nat -> 0 <= 0.995 ^ n < 0.00666.
Proof.
  intros Hn.
  replace n with (1000 + (n - 1000))%nat by lia.
  rewrite pow_add.
  pose proof decay_1000 as [Hlo Hhi].
  assert (Hr : 0 <= 0.995 ^ (n - 1000) <= 1).
  { split; [apply pow_le; lra |].
    rewrite <- (pow1 (n - 1000)). apply pow_incr. lra. }
  set (u := 0.995 ^ 1000) in *. set (v := 0.995 ^ (n - 1000)) in *.
  split; nra.
Qed.

(** The factor of [n] passes against the continuous law [e^(-5t)]. *)
Lemma decay_below_exp (n : nat) :
  0 <= 0.995 ^ n <= exp (- 5 * (INR n * 0.001)).
Proof.
  split; [apply pow_le; lra |].
  replace (- 5 * (INR n * 0.001)) with (INR n * (- 0.005)) by lra.
  rewrite exp_scal. apply pow_incr. split; [lra |].
  pose proof (exp_ineq1_le (- 0.005)). lra.
Qed.

Lemma small_error_after_1000 (e : R) (n : nat) :
  (1000 <= n)%nat -> Rabs e <= 0.15 -> Rabs (e * 0.995 ^ n) < 1e-3.
Proof.
  intros Hn He.
  pose proof (decay_after_1000 n Hn) as [Hlo Hhi].
  rewrite Rabs_mult, (Rabs_pos_eq (0.995 ^ n)) by exact Hlo.
  pose proof (Rabs_pos e). set (u := 0.995 ^ n) in *. nra.
Qed.

(** C7 (counterexample): holding [acc_des = 1] from [acc = 0], the error
    after one pass is not [err(0) * e^(-5 * 0.001)], and after 1000 passes
    (one second) the actual acceleration is still further than 1e-3 from
    the desired one. *)
Lemma C7_counterexample :
  acc_des commanded = 1
  /\ acc commanded = 0
  /\ acc (sub_steps 1 commanded 0.001) - 1
     <> (acc commanded - 1) * exp (- 5 * 0.001)
  /\ 1e-3 < Rabs (acc (sub_steps 1000 commanded 0.001) - 1).
Proof.
  assert (Hd : acc_des commanded = 1) by (simpl; lra).
  assert (Ha : acc commanded = 0) by (simpl; lra).
  split; [exact Hd | split; [exact Ha |]].
  destruct (lag_error_sub_steps 1 commanded 0.001) as [H1 _].
  destruct (lag_error_sub_steps 1000 commanded 0.001) as [H2 _].
  rewrite Hd, Ha in H1, H2.
  replace (1 - 5 * 0.001) with 0.995 in H1, H2 by lra.
  split.
  - rewrite H1, Ha, pow_1. intros E.
    assert (Hne : - 5 * 0.001 <> 0) by lra.
    pose proof (exp_ineq1 (- 5 * 0.001) Hne). lra.
  - rewrite H2. pose proof decay_1000 as [Hlo _].
    set (u := 0.995 ^ 1000) in *.
    replace ((0 - 1) * u) with (- u) by ring.
    rewrite Rabs_Ropp, Rabs_pos_eq; lra.
Qed.

(** C7 (amended): with the desired commands held, [n] passes of 1 ms scale
    both actuation errors by exactly [0.995^n], which is at most
    [e^(-5t)] for [t = n * 0.001]; after 1000 passes or more the errors
    are below 1e-3 when they started at 0.15 or less. *)
Theorem C7_lag_geometric (s : VehicleSimulator) (n : nat) :
  let s' := sub_steps n s 0.001 in
  acc_des s' = acc_des s /\ df_des s' = df_des s
  /\ acc s' - acc_des s = (acc s - acc_des s) * 0.995 ^ n
  /\ df s' - df_des s = (df s - df_des s) * 0.995 ^ n
  /\ Rabs (acc s' - acc_des s)
     <= Rabs (acc s - acc_des s) * exp (- 5 * (INR n * 0.001))
  /\ Rabs (df s' - df_des s)
     <= Rabs (df s - df_des s) * exp (- 5 * (INR n * 0.001))
  /\ ((1000 <= n)%nat ->
      (Rabs (acc s - acc_des s) <= 0.15 -> Rabs (acc s' - acc_des s) < 1e-3)
      /\ (Rabs (df s - df_des s) <= 0.15 -> Rabs (df s' - df_des s) < 1e-3)).
Proof.
  intros s'. subst s'.
  destruct (sub_steps_frame n s 0.001) as (Fa & Fd & _).
  destruct (lag_error_sub_steps n s 0.001) as [Ha Hd].
  replace (1 - 5 * 0.001) with 0.995 in Ha, Hd by lra.
  pose proof (decay_below_exp n) as [Hlo Hhi].
  assert (Hbound : forall e, Rabs (e * 0.995 ^ n)
                             <= Rabs e * exp (- 5 * (INR n * 0.001))).
  { intros e. rewrite Rabs_mult, (Rabs_pos_eq (0.995 ^ n)) by exact Hlo.
    apply Rmult_le_compat_l; [apply Rabs_pos | exact Hhi]. }
  rewrite Ha, Hd.
  repeat split; try assumption; try reflexivity; try apply Hbound.
  - intros He. apply small_error_after_1000; assumption.
  - intros He. apply small_error_after_1000; assumption.
Qed.

Lemma C7_lag_geometric_witness :
  Rabs (acc (sub_steps 1000 (_mpc_cmd_callback init_default 0 0.1 (-0.1)) 0.001)
        - acc_des (_mpc_cmd_callback init_default 0 0.1 (-0.1))) < 1e-3
  /\ Rabs (df (sub_steps 1000 (_mpc_cmd_callback init_default 0 0.1 (-0.1)) 0.001)
           - df_des (_mpc_cmd_callback init_default 0 0.1 (-0.1))) < 1e-3.
Proof.
  destruct (C7_lag_geometric (_mpc_cmd_callback init_default 0 0.1 (-0.1)) 1000)
    as (_ & _ & _ & _ & _ & _ & H).
  destruct (H (le_n 1000)) as [Ha Hd].
  split.
  - apply Ha. simpl. apply Rabs_le. lra.
  - apply Hd. simpl. apply Rabs_le. lra.
Defined.

(** ** Rest stability *)

Lemma next_vy_wz_stopped (s : VehicleSimulator) (deltaT vx_n : R) :
  vx_n <= 1e-6 ->
  fst (next_vy_wz s deltaT vx_n) = 0 /\ snd (next_vy_wz s deltaT vx_n) = 0.
Proof.
  intros H. unfold next_vy_wz.
  destruct (tire_forces s) as [Fyf Fyr].
  destruct (Rlt_dec 1e-6 vx_n); [lra |]. simpl. split; lra.
Qed.

Lemma at_rest_sub_step (s : VehicleSimulator) (deltaT : R) :
  0 <= deltaT <= 0.2 -> at_rest s ->
  at_rest (sub_step s deltaT)
  /\ X (sub_step s deltaT) = X s
  /\ Y (sub_step s deltaT) = Y s
  /\ psi (sub_step s deltaT) = psi s.
Proof.
  intros HdT (Hvx & Hvy & Hwz & Hdes & Hacc & Hpsi).
  assert (Hn : next_vx s deltaT = 0).
  { rewrite next_vx_code, Hvx, Hwz, Hvy.
    destruct (max_cases 0 (0 + deltaT * (acc s + 0 * 0))) as [[H _] | [_ ->]];
      [nra | reflexivity]. }
  assert (Hp : psi (sub_step s deltaT) = psi s).
  { rewrite sub_step_psi, Hwz, Rmult_0_r, Rplus_0_r. apply wrap_id, Hpsi. }
  destruct (next_vy_wz_stopped s deltaT (next_vx s deltaT)) as [Hy Hw];
    [rewrite Hn; lra |].
  destruct (sub_step_frame s deltaT) as (Ea & _).
  unfold at_rest.
  rewrite sub_step_vx, sub_step_vy, sub_step_wz, sub_step_acc, Ea, Hp,
    sub_step_X, sub_step_Y, Hy, Hw, Hn, Hvx, Hvy, Hdes.
  repeat split; try lra; try nra.
Qed.

(** C8 (counterexample): the simulator that started at the origin, was
    commanded (1.0, 0.0) for one pass and then (0, 0), is stopped with zero
    desired commands, yet two passes later it has moved; and a simulator
    started with heading 4 rad has its heading changed by the first pass. *)
Lemma C8_counterexample :
  vx (_mpc_cmd_callback (sub_step commanded 0.001) 0 0 0) = 0
  /\ vy (_mpc_cmd_callback (sub_step commanded 0.001) 0 0 0) = 0
  /\ wz (_mpc_cmd_callback (sub_step commanded 0.001) 0 0 0) = 0
  /\ acc_des (_mpc_cmd_callback (sub_step commanded 0.001) 0 0 0) = 0
  /\ df_des (_mpc_cmd_callback (sub_step commanded 0.001) 0 0 0) = 0
  /\ X (sub_steps 2 (_mpc_cmd_callback (sub_step commanded 0.001) 0 0 0) 0.001)
     <> X (_mpc_cmd_callback (sub_step commanded 0.001) 0 0 0)
  /\ psi (sub_steps 1 (init 0 0 4) 0.001) <> psi (init 0 0 4).
Proof.
  set (s1 := sub_step commanded 0.001).
  assert (Hn1 : next_vx commanded 0.001 = 0).
  { rewrite next_vx_code. simpl.
    destruct (max_cases 0 (0.0 + 0.001 * (0.0 + 0.0 * 0.0))) as [[H _] | [_ ->]];
      [lra | reflexivity]. }
  destruct (next_vy_wz_stopped commanded 0.001 (next_vx commanded 0.001))
    as [Hy1 Hw1]; [rewrite Hn1; lra |].
  assert (Hvx1 : vx s1 = 0) by (unfold s1; rewrite sub_step_vx; exact Hn1).
  assert (Hvy1 : vy s1 = 0) by (unfold s1; rewrite sub_step_vy; exact Hy1).
  assert (Hwz1 : wz s1 = 0) by (unfold s1; rewrite sub_step_wz; exact Hw1).
  assert (Hacc1 : acc s1 = 0.005).
  { unfold s1. rewrite sub_step_acc. simpl. lra. }
  assert (Hpsi1 : psi s1 = 0).
  { unfold s1. rewrite sub_step_psi. simpl.
    replace (0 + 0.001 * 0.0) with 0 by lra.
    apply wrap_id. pose proof PI_RGT_0. lra. }
  assert (HX1 : X s1 = 0).
  { unfold s1. rewrite sub_step_X. simpl. lra. }
  clearbody s1. clear Hn1 Hy1 Hw1.
  set (r := _mpc_cmd_callback s1 0 0 0).
  repeat split; try (simpl; assumption); try reflexivity.
  - (* the residual acceleration moves the vehicle *)
    change (sub_steps 2 r 0.001) with (sub_step (sub_step r 0.001) 0.001).
    set (r1 := sub_step r 0.001).
    assert (Hvxr : vx r1 = 0.000005).
    { unfold r1. rewrite sub_step_vx, next_vx_code. simpl.
      rewrite Hvx1, Hvy1, Hwz1, Hacc1.
      destruct (max_cases 0 (0 + 0.001 * (0.005 + 0 * 0))) as [[_ ->] | [H _]]; lra. }
    assert (Hvyr : vy r1 = 0).
    { unfold r1. rewrite sub_step_vy.
      unfold next_vy_wz, tire_forces, slip_angles, Py.fabs. simpl.
      rewrite Hvx1, Rabs_R0.
      destruct (Rlt_dec 1e-6 0) as [H | _]; [lra |].
      destruct (Rlt_dec 1e-6 (next_vx r 0.001)); simpl; rewrite ?Hvy1, ?Hwz1; lra. }
    assert (Hpsir : psi r1 = 0).
    { unfold r1. rewrite sub_step_psi. simpl. rewrite Hpsi1, Hwz1.
      replace (0 + 0.001 * 0) with 0 by lra.
      apply wrap_id. pose proof PI_RGT_0. lra. }
    assert (HXr : X r1 = 0).
    { unfold r1. rewrite sub_step_X. simpl. rewrite HX1, Hvx1, Hvy1. lra. }
    rewrite sub_step_X, HXr, Hvxr, Hvyr, Hpsir, cos_0. simpl. rewrite HX1. lra.
  - (* a heading outside the interval is wrapped *)
    simpl sub_steps. intros E.
    pose proof (proj1 (sub_step_psi_range (init 0 0 4) 0.001)) as H.
    revert H. rewrite E. simpl. pose proof PI_4. lra.
Qed.

Lemma at_rest_sub_steps (n : nat) : forall s deltaT,
  0 <= deltaT <= 0.2 -> at_rest s ->
  X (sub_steps n s deltaT) = X s
  /\ Y (sub_steps n s deltaT) = Y s
  /\ psi (sub_steps n s deltaT) = psi s
  /\ vx (sub_steps n s deltaT) = 0.
Proof.
  induction n as [|k IH]; intros s deltaT HdT Hrest.
  - simpl. repeat split. apply Hrest.
  - destruct (at_rest_sub_step s deltaT HdT Hrest) as (Hrest' & EX & EY & Ep).
    destruct (IH (sub_step s deltaT) deltaT HdT Hrest') as (HX & HY & Hp & Hv).
    simpl. rewrite HX, HY, Hp, Hv, EX, EY, Ep. repeat split.
Qed.

(** C8 (amended): a stopped vehicle with zero desired commands, whose actual
    acceleration is not positive and whose heading is already in
    [[-pi, pi)], keeps its position and heading through any number of
    passes. *)
Theorem C8_rest_stability (s : VehicleSimulator) (n : nat) (deltaT : R) :
  0 <= deltaT <= 0.2 ->
  vx s = 0 -> vy s = 0 -> wz s = 0 ->
  acc_des s = 0 -> df_des s = 0 ->
  acc s <= 0 -> - PI <= psi s < PI ->
  X (sub_steps n s deltaT) = X s
  /\ Y (sub_steps n s deltaT) = Y s
  /\ psi (sub_steps n s deltaT) = psi s.
Proof.
  intros HdT Hvx Hvy Hwz Ha _ Hacc Hpsi.
  destruct (at_rest_sub_steps n s deltaT HdT) as (HX & HY & Hp & _).
  - unfold at_rest. repeat split; try assumption; apply Hpsi.
  - repeat split; assumption.
Qed.

Lemma C8_rest_stability_witness :
  X (sub_steps 1000 init_default 0.001) = X init_default
  /\ Y (sub_steps 1000 init_default 0.001) = Y init_default
  /\ psi (sub_steps 1000 init_default 0.001) = psi init_default.
Proof.
  apply (C8_rest_stability init_default 1000 0.001);
    try (simpl; lra).
  simpl. pose proof PI2_3_2. lra.
Defined.

(** ** Straight-line scenario *)

Lemma straight_forces (s : VehicleSimulator) :
  straight s -> tire_forces s = (C_alpha_f * 0, C_alpha_r * - 0).
Proof.
  intros (_ & _ & Hvy & Hwz & Hdf & _ & _ & _ & Hvx).
  unfold tire_forces, slip_angles, Py.fabs.
  destruct (Rlt_dec 1e-6 (Rabs (vx s))) as [Hgt | _].
  - rewrite Rabs_pos_eq in Hgt by exact Hvx.
    rewrite Hvy, Hwz, Hdf.
    replace (0 + lf * 0) with 0 by lra. replace (0 - lf * 0) with 0 by lra.
    rewrite arctan2_0_pos by lra. f_equal; lra.
  - f_equal; lra.
Qed.

Lemma straight_sub_step (s : VehicleSimulator) (deltaT : R) :
  0 < deltaT <= 0.2 -> straight s ->
  straight (sub_step s deltaT)
  /\ X (sub_step s deltaT) = X s + deltaT * vx s
  /\ vx (sub_step s deltaT) = vx s + deltaT * acc s
  /\ 0 < acc (sub_step s deltaT).
Proof.
  intros HdT Hs.
  pose proof (straight_forces s Hs) as HF.
  destruct Hs as (HY & Hpsi & Hvy & Hwz & Hdf & Hdd & Had & Hacc & Hvx).
  assert (Hn : next_vx s deltaT = vx s + deltaT * acc s).
  { rewrite next_vx_code, Hwz, Hvy.
    destruct (max_cases 0 (vx s + deltaT * (acc s + 0 * 0))) as [[_ ->] | [H ->]];
      nra. }
  assert (Hyw : fst (next_vy_wz s deltaT (next_vx s deltaT)) = 0
                /\ snd (next_vy_wz s deltaT (next_vx s deltaT)) = 0).
  { unfold next_vy_wz. rewrite HF.
    destruct (Rlt_dec 1e-6 (next_vx s deltaT)); simpl;
      rewrite ?Hvy, ?Hwz; split; lra. }
  destruct Hyw as [Hy Hw].
  assert (Hp : psi (sub_step s deltaT) = 0).
  { rewrite sub_step_psi, Hpsi, Hwz.
    replace (0 + deltaT * 0) with 0 by lra.
    apply wrap_id. pose proof PI_RGT_0. lra. }
  destruct (sub_step_frame s deltaT) as (Ea & Ed & _).
  unfold straight.
  rewrite sub_step_Y, sub_step_X, sub_step_vy, sub_step_wz, sub_step_df,
    sub_step_acc, sub_step_vx, Ea, Ed, Hp, Hy, Hw, Hn, HY, Hpsi, Hvy, Hdf,
    Hdd, Had, sin_0, cos_0.
  repeat split; try lra; try nra.
Qed.

Lemma straight_sub_steps (n : nat) : forall s deltaT,
  0 < deltaT <= 0.2 -> straight s -> straight (sub_steps n s deltaT).
Proof.
  induction n as [|k IH]; intros s deltaT HdT Hs.
  - exact Hs.
  - simpl. apply IH; [exact HdT |]. apply straight_sub_step; assumption.
Qed.

(** After the first pass the actual acceleration is positive, and from the
    second pass on so is the forward speed. *)
Lemma straight_speed_up (n : nat) : forall s deltaT,
  0 < deltaT <= 0.2 -> straight s ->
  0 < acc (sub_steps (S n) s deltaT)
  /\ 0 < vx (sub_steps (S (S n)) s deltaT).
Proof.
  induction n as [|k IH]; intros s deltaT HdT Hs.
  - destruct (straight_sub_step s deltaT HdT Hs) as (Hs1 & _ & _ & Ha1).
    destruct (straight_sub_step (sub_step s deltaT) deltaT HdT Hs1)
      as (_ & _ & Hv2 & _).
    destruct Hs1 as (_ & _ & _ & _ & _ & _ & _ & _ & Hv1).
    split; [exact Ha1 |].
    change (sub_steps 2 s deltaT)
      with (sub_step (sub_step s deltaT) deltaT).
    rewrite Hv2. nra.
  - destruct (straight_sub_step s deltaT HdT Hs) as (Hs1 & _).
    exact (IH (sub_step s deltaT) deltaT HdT Hs1).
Qed.

(** C9: from rest at the origin with the commands (1.0, 0.0) held, through
    any number of passes [Y] stays exactly 0 and [X] never decreases; [X]
    strictly increases over every pass that starts with positive speed,
    which is every pass from the third on. *)
Theorem C9_straight_line (s : VehicleSimulator) (n : nat) (deltaT : R) :
  0 < deltaT <= 0.2 ->
  X s = 0 -> Y s = 0 -> psi s = 0 -> vx s = 0 -> vy s = 0 -> wz s = 0 ->
  acc s = 0 -> df s = 0 -> acc_des s = 1.0 -> df_des s = 0.0 ->
  Y (sub_steps n s deltaT) = 0
  /\ X (sub_steps n s deltaT) <= X (sub_steps (S n) s deltaT)
  /\ (0 < vx (sub_steps n s deltaT) ->
      X (sub_steps n s deltaT) < X (sub_steps (S n) s deltaT))
  /\ ((2 <= n)%nat -> 0 < vx (sub_steps n s deltaT)).
Proof.
  intros HdT _ HY Hpsi Hvx Hvy Hwz Hacc Hdf Had Hdd.
  assert (Hs : straight s).
  { unfold straight. rewrite HY, Hpsi, Hvx, Hvy, Hwz, Hacc, Hdf, Had, Hdd.
    repeat split; lra. }
  pose proof (straight_sub_steps n s deltaT HdT Hs) as Hn.
  destruct (straight_sub_step (sub_steps n s deltaT) deltaT HdT Hn)
    as (_ & HX & _).
  rewrite sub_steps_snoc, HX.
  destruct Hn as (HYn & _ & _ & _ & _ & _ & _ & _ & Hvn).
  repeat split.
  - exact HYn.
  - nra.
  - intros Hpos. nra.
  - intros H2. destruct n as [|[|k]]; [lia | lia |].
    apply (straight_speed_up k s deltaT HdT Hs).
Qed.

Lemma C9_straight_line_witness :
  Y (sub_steps 3000 commanded 0.001) = 0
  /\ X (sub_steps 3000 commanded 0.001) < X (sub_steps 3001 commanded 0.001).
Proof.
  destruct (C9_straight_line commanded 3000 0.001) as (HY & _ & Hlt & Hv);
    try (simpl; lra).
  split; [exact HY |]. apply Hlt, Hv. lia.
Defined.

(** * Further properties of the simulator *)

(** ** The passes of one update *)

Lemma sub_steps_add (a b : nat) : forall s deltaT,
  sub_steps (a + b) s deltaT = sub_steps b (sub_steps a s deltaT) deltaT.
Proof.
  induction a as [|k IH]; intros s deltaT.
  - reflexivity.
  - simpl. apply IH.
Qed.

(** X1: the update refuses [disc_steps = 0] (the division that computes
    [deltaT] fails) and does nothing for a negative [disc_steps] (the range
    of the loop is empty). *)
Theorem update_degenerate_disc_steps (s : VehicleSimulator) :
  _update_vehicle_model s 0 = None
  /\ (forall k : Z, (k < 0)%Z -> _update_vehicle_model s k = Some s).
Proof.
  split; [reflexivity |].
  intros k Hk. unfold _update_vehicle_model.
  destruct (Z.eqb_spec k 0) as [E | _]; [lia |].
  destruct k as [| q | q]; try lia. reflexivity.
Qed.

Lemma update_degenerate_disc_steps_witness :
  _update_vehicle_model init_default (-3) = Some init_default.
Proof.
  apply (update_degenerate_disc_steps init_default). lia.
Defined.



(** X3: in every reachable state the model period is 0.01 s and the rate
    100 Hz, so every pass of the running simulator lasts 0.001 s. *)
Theorem reachable_period (s : VehicleSimulator) :
  reachable s ->
  dt_model s = 0.01 /\ hz s = 100%Z /\ dt_model s / 10 = 0.001.
Proof.
  intros Hr.
  assert (H : dt_model s = 0.01 /\ hz s = 100%Z).
  { induction Hr as [X0 Y0 Psi0 | s now a0 d0 _ IH | s _ IH].
    - split; reflexivity.
    - exact IH.
    - destruct (sub_step_frame s (dt_model s / 10)) as (_ & _ & _ & -> & ->).
      exact IH. }
  destruct H as [Hd Hh]. rewrite Hd. repeat split; try assumption. lra.
Qed.

Lemma reachable_period_witness :
  dt_model (sub_step (_mpc_cmd_callback init_default 0 1 0.1)
              (dt_model (_mpc_cmd_callback init_default 0 1 0.1) / 10)) = 0.01
  /\ hz (sub_step (_mpc_cmd_callback init_default 0 1 0.1)
           (dt_model (_mpc_cmd_callback init_default 0 1 0.1) / 10)) = 100%Z
  /\ dt_model (sub_step (_mpc_cmd_callback init_default 0 1 0.1)
                (dt_model (_mpc_cmd_callback init_default 0 1 0.1) / 10)) / 10
     = 0.001.
Proof.
  apply (reachable_period
           (sub_step (_mpc_cmd_callback init_default 0 1 0.1)
              (dt_model (_mpc_cmd_callback init_default 0 1 0.1) / 10))).
  apply reach_step, reach_cmd, reach_init.
Defined.

(** X4: two ticks in a row, with no command in between, are twenty passes
    of the first tick's [deltaT]: the period is not changed by a tick, so
    the second tick steps by the same amount. *)
Theorem two_ticks_compose (s : VehicleSimulator) :
  exists s1 s2,
    tick s = Some s1 /\ tick s1 = Some s2
    /\ s2 = sub_steps 20 s (dt_model s / 10).
Proof.
  exists (sub_steps 10 s (dt_model s / 10)).
  exists (sub_steps 20 s (dt_model s / 10)).
  split; [reflexivity | split; [| reflexivity]].
  unfold tick, _update_vehicle_model.
  change (10 =? 0)%Z with false. cbv iota.
  change (Z.to_nat 10) with 10%nat. change (IZR 10) with 10.
  destruct (sub_steps_frame 10 s (dt_model s / 10)) as (_ & _ & _ & -> & _).
  rewrite <- sub_steps_add. reflexivity.
Qed.

(** ** The actuator lag never overshoots *)

Lemma lag_factor_range (deltaT : R) (n : nat) :
  0 <= deltaT <= 0.2 -> 0 <= (1 - 5 * deltaT) ^ n <= 1.
Proof.
  intros H. split.
  - apply pow_le. lra.
  - apply Rle_trans with (1 ^ n); [apply pow_incr; lra |].
    rewrite pow1. lra.
Qed.

(** X5: with the desired commands held and a pass of at most 0.2 s, after
    any number of passes the actual acceleration and steering angle lie
    between their starting values and the desired ones. *)
Theorem lag_no_overshoot (s : VehicleSimulator) (n : nat) (deltaT : R) :
  0 <= deltaT <= 0.2 ->
  Rmin (acc s) (acc_des s) <= acc (sub_steps n s deltaT)
                           <= Rmax (acc s) (acc_des s)
  /\ Rmin (df s) (df_des s) <= df (sub_steps n s deltaT)
                            <= Rmax (df s) (df_des s).
Proof.
  intros HdT.
  destruct (lag_error_sub_steps n s deltaT) as [Ha Hd].
  pose proof (lag_factor_range deltaT n HdT) as [Hlo Hhi].
  set (q := (1 - 5 * deltaT) ^ n) in *.
  split.
  - unfold Rmin, Rmax.
    destruct (Rle_dec (acc s) (acc_des s)); split; nra.
  - unfold Rmin, Rmax.
    destruct (Rle_dec (df s) (df_des s)); split; nra.
Qed.

Lemma lag_no_overshoot_witness :
  Rmin (acc (_mpc_cmd_callback init_default 0 2 (-0.3)))
       (acc_des (_mpc_cmd_callback init_default 0 2 (-0.3)))
  <= acc (sub_steps 7 (_mpc_cmd_callback init_default 0 2 (-0.3)) 0.001)
  <= Rmax (acc (_mpc_cmd_callback init_default 0 2 (-0.3)))
          (acc_des (_mpc_cmd_callback init_default 0 2 (-0.3))).
Proof.
  apply (lag_no_overshoot (_mpc_cmd_callback init_default 0 2 (-0.3)) 7 0.001).
  lra.
Defined.

(** ** Geometry of one pass *)

(** X6: the distance covered in one pass is [deltaT] times the body-frame
    speed at the start of the pass: the position update rotates the body
    velocity into the world frame without changing its length. *)
Theorem sub_step_displacement (s : VehicleSimulator) (deltaT : R) :
  (X (sub_step s deltaT) - X s) ^ 2 + (Y (sub_step s deltaT) - Y s) ^ 2
  = deltaT ^ 2 * (vx s ^ 2 + vy s ^ 2).
Proof.
  rewrite sub_step_X, sub_step_Y.
  pose proof (sin2_cos2 (psi s)) as H. unfold Rsqr in H.
  set (c := cos (psi s)) in *. set (sn := sin (psi s)) in *.
  replace (deltaT ^ 2 * (vx s ^ 2 + vy s ^ 2))
    with (deltaT ^ 2 * (vx s ^ 2 + vy s ^ 2) * (sn * sn + c * c))
    by (rewrite H; ring).
  ring.
Qed.

Lemma cos_sin_turns (t : R) (k : Z) :
  cos (t + 2 * IZR k * PI) = cos t /\ sin (t + 2 * IZR k * PI) = sin t.
Proof.
  destruct (Z_le_gt_dec 0 k) as [Hk | Hk].
  - rewrite <- (Z2Nat.id k Hk), <- INR_IZR_INZ.
    split; [apply cos_period | apply sin_period].
  - assert (Hn : (0 <= - k)%Z) by lia.
    pose proof (cos_period (t + 2 * IZR k * PI) (Z.to_nat (- k))) as Hc.
    pose proof (sin_period (t + 2 * IZR k * PI) (Z.to_nat (- k))) as Hs.
    rewrite INR_IZR_INZ, Z2Nat.id, opp_IZR in Hc, Hs by exact Hn.
    replace (t + 2 * IZR k * PI + 2 * - IZR k * PI) with t in Hc, Hs by ring.
    split; symmetry; assumption.
Qed.

(** X7: the heading commit changes the heading by a whole number of turns
    only: the wrapped heading points in the same direction, and wrapping an
    already wrapped heading changes nothing. *)
Theorem wrap_same_direction (theta : R) :
  (exists k : Z, wrap theta = theta + 2 * IZR k * PI)
  /\ cos (wrap theta) = cos theta
  /\ sin (wrap theta) = sin theta
  /\ wrap (wrap theta) = wrap theta.
Proof.
  assert (Hk : wrap theta
               = theta + 2 * IZR (- Int_part ((theta + PI) / (2.0 * PI))) * PI).
  { unfold wrap, Py.fmod. rewrite opp_IZR. lra. }
  split; [eexists; exact Hk |].
  rewrite Hk at 1 2.
  destruct (cos_sin_turns theta (- Int_part ((theta + PI) / (2.0 * PI))))
    as [Hc Hs].
  repeat split; try assumption.
  apply wrap_id, wrap_range.
Qed.

(** ** Slip angles and forces on the road *)





(** ** What a tick publishes *)

Lemma sub_steps_last_range (n : nat) (s : VehicleSimulator) (deltaT : R) :
  - PI <= psi (sub_steps (S n) s deltaT) < PI
  /\ 0 <= vx (sub_steps (S n) s deltaT).
Proof.
  rewrite sub_steps_snoc, sub_step_psi, sub_step_vx. split.
  - apply wrap_range.
  - unfold next_vx. eapply Rle_trans; [| apply max_lower]. lra.
Qed.

(** X9: every pass of the publishing loop returns, and the message it
    publishes carries the state after the update: position, heading in
    [[-pi, pi)], a non-negative speed, and the lag-filtered (not the
    desired) acceleration and steering angle. *)
Theorem pub_loop_body_message (s : VehicleSimulator) (now : R) :
  exists s' msg,
    pub_loop_body s now = Some (s', msg)
    /\ tick s = Some s'
    /\ Msg.stamp msg = now
    /\ Msg.x msg = X s' /\ Msg.y msg = Y s'
    /\ Msg.psi msg = psi s' /\ - PI <= Msg.psi msg < PI
    /\ Msg.v msg = vx s' /\ 0 <= Msg.v msg
    /\ Msg.a msg = acc s' /\ Msg.df msg = df s'.
Proof.
  unfold pub_loop_body, tick, _update_vehicle_model.
  change (10 =? 0)%Z with false. cbv iota.
  change (Z.to_nat 10) with 10%nat.
  destruct (sub_steps_last_range 9 s (dt_model s / IZR 10)) as [Hp Hv].
  eexists. eexists. split; [reflexivity |].
  cbn [Msg.stamp Msg.x Msg.y Msg.psi Msg.v Msg.a Msg.df].
  repeat split; try apply Hp; exact Hv.
Qed.

(** ** Commands reach the vehicle through the lag only *)

Lemma propagate_ignores_command (s : VehicleSimulator) (now a0 d0 deltaT : R) :
  propagate (_mpc_cmd_callback s now a0 d0) deltaT
  = _mpc_cmd_callback (propagate s deltaT) now a0 d0.
Proof.
  unfold propagate, next_vx, next_vy_wz, tire_forces, slip_angles.
  simpl.
  destruct (Rlt_dec 1e-6 (Py.fabs (vx s)));
    destruct (Rlt_dec 1e-6 _); reflexivity.
Qed.

(** X10: a command received just before a pass does not change what that
    pass does to the vehicle (position, heading, velocities): it only
    enters the actual acceleration and steering through the lag, so the
    motion responds one pass later. *)
Theorem command_delayed_one_pass (s : VehicleSimulator) (now a0 d0 deltaT : R) :
  let s1 := sub_step (_mpc_cmd_callback s now a0 d0) deltaT in
  let s0 := sub_step s deltaT in
  X s1 = X s0 /\ Y s1 = Y s0 /\ psi s1 = psi s0
  /\ vx s1 = vx s0 /\ vy s1 = vy s0 /\ wz s1 = wz s0
  /\ acc s1 = acc s0 + 5.0 * (a0 - acc_des s) * deltaT
  /\ df s1 = df s0 + 5.0 * (d0 - df_des s) * deltaT.
Proof.
  intros s1 s0. subst s1 s0. unfold sub_step.
  rewrite propagate_ignores_command. simpl.
  destruct (propagate_frame s deltaT) as (Ea & Ed & _).
  rewrite Ea, Ed.
  repeat split; lra.
Qed.

(** * Properties of the analysis script *)

(** ** [compute_path_s] *)

Lemma last_nth_pred {A : Type} (l : list A) (d0 : A) :
  l <> [] -> nth (length l - 1) l d0 = last l d0.
Proof.
  intros Hne.
  rewrite (app_removelast_last d0 Hne) at 1 2.
  rewrite length_app. simpl length.
  replace (length (removelast l) + 1 - 1)%nat
    with (length (removelast l)) by lia.
  apply nth_middle.
Qed.

(** The loop from index [length pre] on, when the entries for the points
    [pre] are already in [cdists]. *)
Lemma path_s_loop (rest : list (R * R)) : forall pre cdists,
  pre <> [] -> cdists <> [] ->
  fold_left (PathError.path_s_step (pre ++ rest))
            (seq (length pre) (length rest)) cdists
  = cdists ++ PathError.cumulative (last pre (0, 0)) (last cdists 0) rest.
Proof.
  induction rest as [|p tl IH]; intros pre cdists Hpre Hcd.
  - simpl. rewrite app_nil_r. reflexivity.
  - simpl length. simpl seq. simpl fold_left.
    assert (Hstep : PathError.path_s_step (pre ++ p :: tl) cdists (length pre)
                    = cdists ++ [Np.euclidean p (last pre (0, 0)) + last cdists 0]).
    { unfold PathError.path_s_step.
      destruct (Nat.eqb_spec (length pre) 0) as [E | _].
      - destruct pre; [contradiction | discriminate].
      - rewrite nth_middle.
        rewrite app_nth1 by (destruct pre; [contradiction | simpl; lia]).
        rewrite last_nth_pred by exact Hpre. reflexivity. }
    rewrite Hstep.
    replace (pre ++ p :: tl) with ((pre ++ [p]) ++ tl)
      by (rewrite <- app_assoc; reflexivity).
    replace (S (length pre)) with (length (pre ++ [p]))
      by (rewrite length_app; simpl; lia).
    rewrite IH.
    + rewrite !last_last, <- app_assoc. reflexivity.
    + destruct pre; discriminate.
    + destruct cdists; discriminate.
Qed.

Lemma compute_path_s_cons (p : R * R) (tl : list (R * R)) :
  PathError.compute_path_s (p :: tl) = 0.0 :: PathError.cumulative p 0.0 tl.
Proof.
  unfold PathError.compute_path_s.
  simpl length. simpl seq. simpl fold_left.
  change (PathError.path_s_step (p :: tl) [] 0%nat) with [0.0].
  pose proof (path_s_loop tl [p] [0.0]) as H.
  simpl in H. apply H; discriminate.
Qed.

Lemma cumulative_length (rest : list (R * R)) : forall prev s_prev,
  length (PathError.cumulative prev s_prev rest) = length rest.
Proof.
  induction rest as [|p tl IH]; intros prev s_prev; simpl.
  - reflexivity.
  - rewrite IH. reflexivity.
Qed.

Lemma cumulative_increment (rest : list (R * R)) : forall prev s_prev i,
  (S i < length (prev :: rest))%nat ->
  nth (S i) (s_prev :: PathError.cumulative prev s_prev rest) 0
  - nth i (s_prev :: PathError.cumulative prev s_prev rest) 0
  = Np.euclidean (nth (S i) (prev :: rest) (0, 0)) (nth i (prev :: rest) (0, 0)).
Proof.
  induction rest as [|p tl IH]; intros prev s_prev i Hi.
  - simpl in Hi. lia.
  - destruct i as [|i'].
    + simpl. ring.
    + change (nth (S (S i')) (s_prev :: PathError.cumulative prev s_prev (p :: tl)) 0)
        with (nth (S i') (Np.euclidean p prev + s_prev
                          :: PathError.cumulative p (Np.euclidean p prev + s_prev) tl) 0).
      change (nth (S i') (s_prev :: PathError.cumulative prev s_prev (p :: tl)) 0)
        with (nth i' (Np.euclidean p prev + s_prev
                      :: PathError.cumulative p (Np.euclidean p prev + s_prev) tl) 0).
      change (nth (S (S i')) (prev :: p :: tl) (0, 0))
        with (nth (S i') (p :: tl) (0, 0)).
      change (nth (S i') (prev :: p :: tl) (0, 0))
        with (nth i' (p :: tl) (0, 0)).
      apply IH. simpl in Hi |- *. lia.
Qed.

(** X11: [compute_path_s] returns one entry per point (none for an empty
    path), the first entry is 0, and each further entry adds to the one
    before it the Euclidean distance between the two consecutive points. *)
Theorem compute_path_s_increments (xy_arr : list (R * R)) :
  length (PathError.compute_path_s xy_arr) = length xy_arr
  /\ (xy_arr <> [] -> nth 0 (PathError.compute_path_s xy_arr) 0 = 0)
  /\ (forall i, (S i < length xy_arr)%nat ->
        nth (S i) (PathError.compute_path_s xy_arr) 0
        = nth i (PathError.compute_path_s xy_arr) 0
          + Np.euclidean (nth (S i) xy_arr (0, 0)) (nth i xy_arr (0, 0))).
Proof.
  destruct xy_arr as [|p tl].
  - split; [reflexivity | split].
    + intros H. contradiction.
    + intros i Hi. simpl in Hi. lia.
  - rewrite compute_path_s_cons. repeat split.
    + simpl. rewrite cumulative_length. reflexivity.
    + intros _. simpl. lra.
    + intros i Hi.
      pose proof (cumulative_increment tl p 0.0 i Hi) as H. lra.
Qed.

Lemma compute_path_s_increments_witness :
  nth 1 (PathError.compute_path_s [(0, 0); (3, 4); (3, 5)]) 0
  = nth 0 (PathError.compute_path_s [(0, 0); (3, 4); (3, 5)]) 0
    + Np.euclidean (nth 1 [(0, 0); (3, 4); (3, 5)] (0, 0))
                   (nth 0 [(0, 0); (3, 4); (3, 5)] (0, 0)).
Proof.
  apply (compute_path_s_increments [(0, 0); (3, 4); (3, 5)]).
  simpl. lia.
Defined.

Lemma euclidean_dist_euc (p q : R * R) :
  Np.euclidean p q = dist_euc (fst p) (snd p) (fst q) (snd q).
Proof. unfold Np.euclidean, dist_euc. rewrite !Rsqr_pow2. reflexivity. Qed.

Lemma euclidean_triangle (p q r : R * R) :
  Np.euclidean r p <= Np.euclidean q p + Np.euclidean r q.
Proof.
  rewrite !euclidean_dist_euc.
  pose proof (triangle (fst r) (snd r) (fst p) (snd p) (fst q) (snd q)) as H.
  lra.
Qed.

Lemma euclidean_refl (p : R * R) : Np.euclidean p p = 0.
Proof.
  unfold Np.euclidean.
  replace ((fst p - fst p) ^ 2 + (snd p - snd p) ^ 2) with 0 by ring.
  apply sqrt_0.
Qed.

(** X12: between any two points of the path the arc length grows by at
    least their straight-line distance; in particular the cumulative
    distances never decrease. *)
Theorem compute_path_s_arc_ge_chord (xy_arr : list (R * R)) (i j : nat) :
  (i <= j < length xy_arr)%nat ->
  Np.euclidean (nth j xy_arr (0, 0)) (nth i xy_arr (0, 0))
  <= nth j (PathError.compute_path_s xy_arr) 0
     - nth i (PathError.compute_path_s xy_arr) 0
  /\ nth i (PathError.compute_path_s xy_arr) 0
     <= nth j (PathError.compute_path_s xy_arr) 0.
Proof.
  intros [Hij Hj].
  assert (Hchord :
    Np.euclidean (nth j xy_arr (0, 0)) (nth i xy_arr (0, 0))
    <= nth j (PathError.compute_path_s xy_arr) 0
       - nth i (PathError.compute_path_s xy_arr) 0).
  { induction j as [|j' IH].
    - replace i with 0%nat by lia. rewrite euclidean_refl. lra.
    - destruct (Nat.eq_dec i (S j')) as [-> | Hne].
      + rewrite euclidean_refl. lra.
      + assert (Hij' : (i <= j')%nat) by lia.
        assert (Hj' : (j' < length xy_arr)%nat) by lia.
        specialize (IH Hij' Hj').
        destruct (compute_path_s_increments xy_arr) as (_ & _ & Hinc).
        rewrite (Hinc j' Hj).
        pose proof (euclidean_triangle (nth i xy_arr (0, 0))
                      (nth j' xy_arr (0, 0)) (nth (S j') xy_arr (0, 0))).
        lra. }
  split; [exact Hchord |].
  assert (0 <= Np.euclidean (nth j xy_arr (0, 0)) (nth i xy_arr (0, 0)))
    by (unfold Np.euclidean; apply sqrt_pos).
  lra.
Qed.

Lemma compute_path_s_arc_ge_chord_witness :
  Np.euclidean (nth 2 [(0, 0); (3, 4); (3, 5)] (0, 0))
               (nth 0 [(0, 0); (3, 4); (3, 5)] (0, 0))
  <= nth 2 (PathError.compute_path_s [(0, 0); (3, 4); (3, 5)]) 0
     - nth 0 (PathError.compute_path_s [(0, 0); (3, 4); (3, 5)]) 0
  /\ nth 0 (PathError.compute_path_s [(0, 0); (3, 4); (3, 5)]) 0
     <= nth 2 (PathError.compute_path_s [(0, 0); (3, 4); (3, 5)]) 0.
Proof.
  apply (compute_path_s_arc_ge_chord [(0, 0); (3, 4); (3, 5)] 0 2).
  simpl. lia.
Defined.

(** ** [fix_heading] *)

(** Which candidate [fix_heading] picks, with what made it the first
    minimum. *)
Lemma fix_heading_entry_cases (p : R) :
  (PathError.fix_heading_entry p = p
   /\ Rabs p <= Rabs (p + 2 * PI) /\ Rabs p <= Rabs (p - 2 * PI))
  \/ (PathError.fix_heading_entry p = p + 2 * PI
      /\ Rabs (p + 2 * PI) < Rabs p
      /\ Rabs (p + 2 * PI) <= Rabs (p - 2 * PI))
  \/ (PathError.fix_heading_entry p = p - 2 * PI
      /\ Rabs (p - 2 * PI) < Rabs p
      /\ Rabs (p - 2 * PI) < Rabs (p + 2 * PI)).
Proof.
  unfold PathError.fix_heading_entry, Np.argmin. simpl.
  destruct (Rlt_dec (Rabs (p + 2 * PI)) (Rabs p)) as [H1 | H1];
    [destruct (Rlt_dec (Rabs (p - 2 * PI)) (Rabs (p + 2 * PI))) as [H2 | H2]
    | destruct (Rlt_dec (Rabs (p - 2 * PI)) (Rabs p)) as [H2 | H2]].
  - right. right. repeat split; lra.
  - right. left. repeat split; lra.
  - right. right. repeat split; lra.
  - left. repeat split; lra.
Qed.

Lemma fix_heading_nth (psi_arr : list R) (i : nat) :
  (i < length psi_arr)%nat ->
  nth i (PathError.fix_heading psi_arr) 0
  = PathError.fix_heading_entry (nth i psi_arr 0).
Proof.
  intros Hi. unfold PathError.fix_heading.
  rewrite (nth_indep _ 0 (PathError.fix_heading_entry 0))
    by (rewrite length_map; exact Hi).
  apply map_nth.
Qed.

Ltac abs_cases :=
  unfold Rabs in *;
  repeat match goal with
         | H : context [Rcase_abs ?t] |- _ => destruct (Rcase_abs t)
         | |- context [Rcase_abs ?t] => destruct (Rcase_abs t)
         end.

(** X13: [fix_heading] keeps the length of the array and moves each
    heading by no turn or by one full turn, to the candidate of smallest
    magnitude; it never increases the magnitude of an entry. *)
Theorem fix_heading_one_turn (psi_arr : list R) (i : nat) :
  (i < length psi_arr)%nat ->
  let p := nth i psi_arr 0 in
  let q := nth i (PathError.fix_heading psi_arr) 0 in
  length (PathError.fix_heading psi_arr) = length psi_arr
  /\ (q = p \/ q = p + 2 * PI \/ q = p - 2 * PI)
  /\ Rabs q <= Rabs p
  /\ Rabs q <= Rabs (p + 2 * PI)
  /\ Rabs q <= Rabs (p - 2 * PI).
Proof.
  intros Hi p q. subst q. rewrite fix_heading_nth by exact Hi. fold p.
  split; [apply length_map |].
  destruct (fix_heading_entry_cases p)
    as [(-> & H1 & H2) | [(-> & H1 & H2) | (-> & H1 & H2)]];
    repeat split; try lra; tauto.
Qed.

Lemma fix_heading_one_turn_witness :
  Rabs (nth 1 (PathError.fix_heading [0; 5; -4]) 0) <= Rabs (nth 1 [0; 5; -4] 0).
Proof.
  apply (fix_heading_one_turn [0; 5; -4] 1). simpl. lia.
Defined.

(** X14: a heading of at most a turn and a half in magnitude is brought
    into [[-pi, pi]]. *)
Theorem fix_heading_range (psi_arr : list R) (i : nat) :
  (i < length psi_arr)%nat ->
  - (3 * PI) <= nth i psi_arr 0 <= 3 * PI ->
  - PI <= nth i (PathError.fix_heading psi_arr) 0 <= PI.
Proof.
  intros Hi Hp. rewrite fix_heading_nth by exact Hi.
  set (p := nth i psi_arr 0) in *.
  pose proof PI_RGT_0 as Hpi.
  destruct (fix_heading_entry_cases p)
    as [(-> & H1 & H2) | [(-> & H1 & H2) | (-> & H1 & H2)]];
    abs_cases; lra.
Qed.

Lemma fix_heading_range_witness :
  - PI <= nth 1 (PathError.fix_heading [0; 5; -4]) 0 <= PI.
Proof.
  apply (fix_heading_range [0; 5; -4] 1).
  - simpl. lia.
  - simpl. pose proof PI2_3_2. lra.
Defined.

Lemma fix_heading_entry_id (p : R) :
  - PI <= p <= PI -> PathError.fix_heading_entry p = p.
Proof.
  intros Hp. pose proof PI_RGT_0 as Hpi.
  destruct (fix_heading_entry_cases p)
    as [(-> & H1 & H2) | [(E & H1 & H2) | (E & H1 & H2)]];
    [reflexivity | exfalso | exfalso]; abs_cases; lra.
Qed.

Lemma pub_loop_body_inv (s : VehicleSimulator) (now : R)
    (s' : VehicleSimulator) (msg : Msg.state_est) :
  pub_loop_body s now = Some (s', msg) ->
  s' = sub_steps 10 s (dt_model s / 10)
  /\ Msg.psi msg = psi (sub_steps 10 s (dt_model s / 10)).
Proof.
  unfold pub_loop_body, _update_vehicle_model.
  change (10 =? 0)%Z with false. cbv iota.
  intros H. injection H as <- <-. split; reflexivity.
Qed.

(** X15: headings already in [[-pi, pi]] are left as they are, both ends
    included; so the heading of every message the simulator publishes
    passes through [fix_heading] unchanged. *)
Theorem fix_heading_keeps_wrapped :
  (forall psi_arr,
      (forall p, In p psi_arr -> - PI <= p <= PI) ->
      PathError.fix_heading psi_arr = psi_arr)
  /\ (forall s now s' msg,
         pub_loop_body s now = Some (s', msg) ->
         PathError.fix_heading [Msg.psi msg] = [Msg.psi msg]).
Proof.
  assert (Hid : forall psi_arr,
             (forall p, In p psi_arr -> - PI <= p <= PI) ->
             PathError.fix_heading psi_arr = psi_arr).
  { induction psi_arr as [|p tl IH]; intros Hall.
    - reflexivity.
    - simpl. rewrite fix_heading_entry_id by (apply Hall; left; reflexivity).
      f_equal. apply IH. intros q Hq. apply Hall. right. exact Hq. }
  split; [exact Hid |].
  intros s now s' msg Hpub. apply Hid. intros p [<- | []].
  destruct (pub_loop_body_inv s now s' msg Hpub) as [-> ->].
  destruct (sub_steps_last_range 9 s (dt_model s / 10)) as [Hp _]. lra.
Qed.

Lemma fix_heading_keeps_wrapped_witness :
  PathError.fix_heading [1; -2; 3] = [1; -2; 3].
Proof.
  apply (proj1 fix_heading_keeps_wrapped).
  pose proof PI2_3_2.
  intros p [<- | [<- | [<- | []]]]; lra.
Defined.

Lemma fix_heading_entry_range (p : R) :
  - (3 * PI) <= p <= 3 * PI -> - PI <= PathError.fix_heading_entry p <= PI.
Proof.
  intros Hp. pose proof PI_RGT_0 as Hpi.
  destruct (fix_heading_entry_cases p)
    as [(-> & H1 & H2) | [(-> & H1 & H2) | (-> & H1 & H2)]];
    abs_cases; lra.
Qed.

Lemma fix_heading_entry_turn (p : R) :
  exists k : Z, PathError.fix_heading_entry p = p + 2 * IZR k * PI.
Proof.
  destruct (fix_heading_entry_cases p)
    as [(-> & _) | [(-> & _) | (-> & _)]].
  - exists 0%Z. lra.
  - exists 1%Z. lra.
  - exists (-1)%Z. lra.
Qed.

Lemma yaw_errors_nth (p_pr p_pf : list R) (closest_ind_xy : list nat) (j : nat) :
  length closest_ind_xy = length p_pf ->
  (j < length p_pf)%nat ->
  (nth j closest_ind_xy 0%nat < length p_pr)%nat ->
  nth j (PathError.yaw_errors p_pr p_pf closest_ind_xy) 0
  = PathError.fix_heading_entry
      (PathError.fix_heading_entry (nth (nth j closest_ind_xy 0%nat) p_pr 0)
       - PathError.fix_heading_entry (nth j p_pf 0)).
Proof.
  intros Hlen Hj Hc. unfold PathError.yaw_errors.
  set (A := map (fun i => nth i (PathError.fix_heading p_pr) 0) closest_ind_xy).
  set (B := PathError.fix_heading p_pf).
  assert (HA : length A = length p_pf) by (unfold A; rewrite length_map; exact Hlen).
  assert (HB : length B = length p_pf) by (unfold B; apply length_map).
  assert (HAB : length (combine A B) = length p_pf)
    by (rewrite length_combine, HA, HB; lia).
  rewrite fix_heading_nth by (rewrite length_map, HAB; exact Hj).
  f_equal.
  rewrite (nth_indep _ 0 ((fun ab : R * R => fst ab - snd ab) (0, 0)))
    by (rewrite length_map, HAB; exact Hj).
  rewrite (map_nth (fun ab : R * R => fst ab - snd ab)).
  rewrite combine_nth by (rewrite HA, HB; reflexivity).
  cbn [fst snd].
  f_equal.
  - unfold A.
    rewrite (nth_indep _ 0 ((fun i => nth i (PathError.fix_heading p_pr) 0) 0%nat))
      by (rewrite length_map, Hlen; exact Hj).
    rewrite (map_nth (fun i => nth i (PathError.fix_heading p_pr) 0)).
    apply fix_heading_nth. exact Hc.
  - unfold B. apply fix_heading_nth. exact Hj.
Qed.

(** X16: the yaw error that [get_errors] plots, computed from heading
    arrays that the earlier calls of [fix_heading] had rewritten in place:
    when the two headings it compares are within a turn and a half, the
    error lies in [[-pi, pi]] and differs from the plain difference of the
    two headings by whole turns. *)
Theorem yaw_errors_wrapped (p_pr p_pf : list R) (closest_ind_xy : list nat)
    (j : nat) :
  length closest_ind_xy = length p_pf ->
  (j < length p_pf)%nat ->
  (nth j closest_ind_xy 0%nat < length p_pr)%nat ->
  - (3 * PI) <= nth (nth j closest_ind_xy 0%nat) p_pr 0 <= 3 * PI ->
  - (3 * PI) <= nth j p_pf 0 <= 3 * PI ->
  - PI <= nth j (PathError.yaw_errors p_pr p_pf closest_ind_xy) 0 <= PI
  /\ exists k : Z,
       nth j (PathError.yaw_errors p_pr p_pf closest_ind_xy) 0
       = nth (nth j closest_ind_xy 0%nat) p_pr 0 - nth j p_pf 0
         + 2 * IZR k * PI.
Proof.
  intros Hlen Hj Hc Hr Hf.
  rewrite yaw_errors_nth by assumption.
  set (r := nth (nth j closest_ind_xy 0%nat) p_pr 0) in *.
  set (f := nth j p_pf 0) in *.
  pose proof (fix_heading_entry_range r Hr) as Hr'.
  pose proof (fix_heading_entry_range f Hf) as Hf'.
  destruct (fix_heading_entry_turn r) as [k1 E1].
  destruct (fix_heading_entry_turn f) as [k2 E2].
  set (r' := PathError.fix_heading_entry r) in *.
  set (f' := PathError.fix_heading_entry f) in *.
  destruct (fix_heading_entry_turn (r' - f')) as [k3 E3].
  pose proof PI_RGT_0 as Hpi.
  split.
  - apply fix_heading_entry_range. lra.
  - exists (k1 - k2 + k3)%Z. rewrite E3, E1, E2, plus_IZR, minus_IZR. ring.
Qed.

Lemma yaw_errors_wrapped_witness :
  - PI <= nth 0 (PathError.yaw_errors [3; -3] [-3] [0%nat]) 0 <= PI
  /\ exists k : Z,
       nth 0 (PathError.yaw_errors [3; -3] [-3] [0%nat]) 0
       = nth (nth 0 [0%nat] 0%nat) [3; -3] 0 - nth 0 [-3] 0 + 2 * IZR k * PI.
Proof.
  pose proof PI2_3_2.
  apply (yaw_errors_wrapped [3; -3] [-3] [0%nat] 0);
    simpl; try lia; try lra; reflexivity.
Defined.

(** ** [np.argmin] and the distance matrix *)

Lemma argmin_from_first_min (l : list R) : forall pre best bv i,
  i = length pre -> bv = nth best pre 0 -> (best < length pre)%nat ->
  (forall j, (j < length pre)%nat -> bv <= nth j pre 0) ->
  (forall j, (j < best)%nat -> bv < nth j pre 0) ->
  let r := Np.argmin_from best bv i l in
  (r < length (pre ++ l))%nat
  /\ (forall j, (j < length (pre ++ l))%nat ->
        nth r (pre ++ l) 0 <= nth j (pre ++ l) 0)
  /\ (forall j, (j < r)%nat -> nth r (pre ++ l) 0 < nth j (pre ++ l) 0).
Proof.
  induction l as [|x0 tl IH]; intros pre best bv i Hi Hbv Hbest Hmin Hfirst.
  - simpl. rewrite app_nil_r. subst bv. repeat split; assumption.
  - simpl Np.argmin_from.
    replace (pre ++ x0 :: tl) with ((pre ++ [x0]) ++ tl)
      by (rewrite <- app_assoc; reflexivity).
    assert (Hlen : S i = length (pre ++ [x0]))
      by (rewrite length_app; simpl; lia).
    assert (Hold : forall j, (j < length pre)%nat ->
                             nth j (pre ++ [x0]) 0 = nth j pre 0)
      by (intros j Hj; apply app_nth1; exact Hj).
    assert (Hnew : nth i (pre ++ [x0]) 0 = x0)
      by (subst i; apply nth_middle).
    destruct (Rlt_dec x0 bv) as [Hlt | Hge].
    + apply IH; try assumption.
      * symmetry. exact Hnew.
      * lia.
      * intros j Hj. rewrite <- Hlen in Hj.
        destruct (Nat.eq_dec j i) as [-> | Hne]; [rewrite Hnew; lra |].
        rewrite Hold by lia. specialize (Hmin j ltac:(lia)). lra.
      * intros j Hj. rewrite Hold by lia. specialize (Hmin j ltac:(lia)). lra.
    + apply IH; try assumption.
      * rewrite Hold by exact Hbest. exact Hbv.
      * rewrite <- Hlen. lia.
      * intros j Hj. rewrite <- Hlen in Hj.
        destruct (Nat.eq_dec j i) as [-> | Hne]; [rewrite Hnew; lra |].
        rewrite Hold by lia. apply Hmin. lia.
      * intros j Hj. rewrite Hold by lia. apply Hfirst. exact Hj.
Qed.

(** [np.argmin] of a non-empty array returns the first index of its
    minimum. *)
Lemma argmin_first_min (l : list R) :
  l <> [] ->
  exists r, Np.argmin l = Some r
    /\ (r < length l)%nat
    /\ (forall j, (j < length l)%nat -> nth r l 0 <= nth j l 0)
    /\ (forall j, (j < r)%nat -> nth r l 0 < nth j l 0).
Proof.
  destruct l as [|x0 tl]; [contradiction |]. intros _.
  eexists. split; [reflexivity |].
  apply (argmin_from_first_min tl [x0] 0%nat x0 1%nat); try reflexivity.
  - simpl. lia.
  - intros j Hj. simpl in Hj. replace j with 0%nat by lia. simpl. lra.
  - intros j Hj. lia.
Qed.

Lemma nearest_first_min (xy_ref : list (R * R)) (q : R * R) :
  xy_ref <> [] ->
  Np.argmin (map (fun p => Np.euclidean p q) xy_ref)
  = Some (PathError.nearest xy_ref q)
  /\ (PathError.nearest xy_ref q < length xy_ref)%nat
  /\ (forall i, (i < length xy_ref)%nat ->
        Np.euclidean (nth (PathError.nearest xy_ref q) xy_ref (0, 0)) q
        <= Np.euclidean (nth i xy_ref (0, 0)) q)
  /\ (forall i, (i < PathError.nearest xy_ref q)%nat ->
        Np.euclidean (nth (PathError.nearest xy_ref q) xy_ref (0, 0)) q
        < Np.euclidean (nth i xy_ref (0, 0)) q).
Proof.
  intros Hne.
  assert (Hne' : map (fun p => Np.euclidean p q) xy_ref <> [])
    by (destruct xy_ref; [contradiction | discriminate]).
  destruct (argmin_first_min _ Hne') as (r & Hr & Hlt & Hmin & Hfirst).
  unfold PathError.nearest. rewrite Hr.
  rewrite length_map in Hlt, Hmin.
  assert (Hnth : forall i, (i < length xy_ref)%nat ->
            nth i (map (fun p => Np.euclidean p q) xy_ref) 0
            = Np.euclidean (nth i xy_ref (0, 0)) q).
  { intros i Hi.
    rewrite (nth_indep _ 0 ((fun p => Np.euclidean p q) (0, 0)))
      by (rewrite length_map; exact Hi).
    apply (map_nth (fun p => Np.euclidean p q)). }
  repeat split.
  - exact Hlt.
  - intros i Hi. rewrite <- !Hnth by assumption. apply Hmin. exact Hi.
  - intros i Hi. rewrite <- !Hnth by lia. apply Hfirst. exact Hi.
Qed.

Lemma column_cdist (XA XB : list (R * R)) (j : nat) :
  (j < length XB)%nat ->
  Np.column (Np.cdist XA XB) j
  = map (fun p => Np.euclidean p (nth j XB (0, 0))) XA.
Proof.
  intros Hj. unfold Np.column, Np.cdist. rewrite map_map.
  apply map_ext. intros p.
  rewrite (nth_indep _ 0 ((fun q => Np.euclidean p q) (0, 0)))
    by (rewrite length_map; exact Hj).
  apply (map_nth (fun q => Np.euclidean p q)).
Qed.

Lemma skipn_cons_nth {A : Type} (l : list A) (d0 : A) : forall j,
  (j < length l)%nat -> skipn j l = nth j l d0 :: skipn (S j) l.
Proof.
  induction l as [|a0 tl IH]; intros j Hj.
  - simpl in Hj. lia.
  - destruct j as [|j']; [reflexivity |].
    simpl in Hj. simpl. apply IH. lia.
Qed.

Lemma argmin_axis0_cdist (xy_ref XB : list (R * R)) :
  xy_ref <> [] ->
  forall k j, (j + k = length XB)%nat ->
    Np.argmin_axis0_from (Np.cdist xy_ref XB) j k
    = Some (map (PathError.nearest xy_ref) (skipn j XB)).
Proof.
  intros Hne. induction k as [|k' IH]; intros j Hjk.
  - simpl. rewrite skipn_all2 by lia. reflexivity.
  - simpl. rewrite column_cdist by lia.
    destruct (nearest_first_min xy_ref (nth j XB (0, 0)) Hne) as (-> & _).
    rewrite IH by lia.
    rewrite (skipn_cons_nth XB (0, 0) j) by lia. reflexivity.
Qed.

Lemma take_per_column_cdist (xy_ref XB : list (R * R)) :
  xy_ref <> [] ->
  Np.take_per_column (Np.cdist xy_ref XB) (map (PathError.nearest xy_ref) XB)
  = map (fun q => Np.euclidean
                    (nth (PathError.nearest xy_ref q) xy_ref (0, 0)) q) XB.
Proof.
  intros Hne. unfold Np.take_per_column. rewrite length_map.
  set (h := fun ij : nat * nat =>
              nth (snd ij) (nth (fst ij) (Np.cdist xy_ref XB) []) 0).
  set (g := fun q => Np.euclidean
                       (nth (PathError.nearest xy_ref q) xy_ref (0, 0)) q).
  apply (nth_ext _ _ (h (0%nat, 0%nat)) (g (0, 0))).
  - rewrite !length_map, length_combine, length_map, length_seq. lia.
  - intros j Hj.
    rewrite length_map, length_combine, length_map, length_seq in Hj.
    assert (Hj' : (j < length XB)%nat) by lia.
    rewrite (map_nth h), (map_nth g).
    rewrite combine_nth by (rewrite length_map, length_seq; reflexivity).
    rewrite seq_nth by exact Hj'.
    rewrite (nth_indep _ 0%nat (PathError.nearest xy_ref (0, 0)))
      by (rewrite length_map; exact Hj').
    rewrite (map_nth (PathError.nearest xy_ref)).
    unfold h, g. cbn [fst snd]. simpl plus.
    set (q := nth j XB (0, 0)).
    destruct (nearest_first_min xy_ref q Hne) as (_ & Hlt & _).
    unfold Np.cdist.
    rewrite (nth_indep _ [] ((fun p => map (fun q0 => Np.euclidean p q0) XB) (0, 0)))
      by (rewrite length_map; exact Hlt).
    rewrite (map_nth (fun p => map (fun q0 => Np.euclidean p q0) XB)).
    rewrite (nth_indep _ 0 ((fun q0 => Np.euclidean
               (nth (PathError.nearest xy_ref q) xy_ref (0, 0)) q0) (0, 0)))
      by (rewrite length_map; exact Hj').
    apply (map_nth (fun q0 => Np.euclidean
               (nth (PathError.nearest xy_ref q) xy_ref (0, 0)) q0)).
Qed.

(** ** [compute_path_errors] *)

Lemma firstn_add_split {A : Type} (a b : nat) : forall l : list A,
  firstn (a + b) l = firstn a l ++ firstn b (skipn a l).
Proof.
  induction a as [|a' IH]; intros l.
  - reflexivity.
  - destruct l as [|x0 tl]; simpl.
    + rewrite firstn_nil. reflexivity.
    + rewrite IH. reflexivity.
Qed.

Lemma skipn_repeat {A : Type} (x0 : A) (k : nat) : forall n,
  skipn k (repeat x0 n) = repeat x0 (n - k).
Proof.
  induction k as [|k' IH]; intros n.
  - rewrite Nat.sub_0_r. reflexivity.
  - destruct n as [|n']; [reflexivity |]. simpl. apply IH.
Qed.

Lemma filled_start {A B : Type} (h : A -> B) (act : list A) :
  filled h act 0 = repeat None (length act).
Proof. unfold filled. simpl. rewrite Nat.sub_0_r. reflexivity. Qed.

Lemma filled_end {A B : Type} (h : A -> B) (act : list A) (st : nat) :
  (length act <= st)%nat -> filled h act st = map Some (map h act).
Proof.
  intros H. unfold filled. rewrite firstn_all2 by exact H.
  replace (length act - st)%nat with 0%nat by lia.
  simpl. apply app_nil_r.
Qed.

Lemma assign_chunk {A B : Type} (h : A -> B) (act : list A) (st c : nat) :
  Np.assign_slice (filled h act st) st
    (map Some (map h (Np.slice act st (Nat.min (length act) (st + c)))))
  = filled h act (st + c).
Proof.
  unfold Np.assign_slice, Np.slice, filled.
  destruct (Nat.le_gt_cases st (length act)) as [Hle | Hgt].
  - set (k := (Nat.min (length act) (st + c) - st)%nat).
    assert (Hk : k = Nat.min c (length act - st)) by (unfold k; lia).
    assert (HA : length (map Some (map h (firstn st act))) = st)
      by (rewrite !length_map, length_firstn; lia).
    assert (HB : length (firstn k (skipn st act)) = k)
      by (rewrite length_firstn, length_skipn; lia).
    rewrite !length_map, HB.
    rewrite firstn_app, HA, Nat.sub_diag, firstn_O, app_nil_r.
    rewrite firstn_all2 by lia.
    rewrite skipn_app, HA.
    rewrite (skipn_all2 (n := (st + k)%nat)) by lia.
    replace (st + k - st)%nat with k by lia.
    rewrite skipn_repeat. simpl app.
    rewrite firstn_add_split, !map_app, <- app_assoc.
    f_equal. f_equal.
    + f_equal. f_equal.
      destruct (Nat.le_gt_cases c (length act - st)) as [Hc | Hc].
      * f_equal. lia.
      * replace k with (length (skipn st act))
          by (rewrite length_skipn; lia).
        rewrite firstn_all, firstn_all2 by (rewrite length_skipn; lia).
        reflexivity.
    + f_equal. lia.
  - replace (Nat.min (length act) (st + c) - st)%nat with 0%nat by lia.
    simpl. rewrite Nat.add_0_r, firstn_skipn.
    rewrite !firstn_all2 by lia.
    replace (length act - st)%nat with 0%nat by lia.
    replace (length act - (st + c))%nat with 0%nat by lia.
    reflexivity.
Qed.

Lemma path_errors_step_filled (xy_ref xy_actual : list (R * R)) (st : nat) :
  xy_ref <> [] ->
  PathError.path_errors_step xy_ref xy_actual
    (Some (filled (fun q => Np.euclidean
                     (nth (PathError.nearest xy_ref q) xy_ref (0, 0)) q)
                  xy_actual st,
           filled (PathError.nearest xy_ref) xy_actual st)) st
  = Some (filled (fun q => Np.euclidean
                     (nth (PathError.nearest xy_ref q) xy_ref (0, 0)) q)
                 xy_actual (st + PathError.chunk),
          filled (PathError.nearest xy_ref) xy_actual (st + PathError.chunk)).
Proof.
  intros Hne. unfold PathError.path_errors_step.
  set (c := PathError.chunk).
  set (en := Nat.min (length xy_actual) (st + c)).
  set (XB := Np.slice xy_actual st en).
  assert (HB : length XB = (en - st)%nat).
  { unfold XB, Np.slice. rewrite length_firstn, length_skipn.
    unfold en. lia. }
  unfold Np.argmin_axis0.
  rewrite (argmin_axis0_cdist xy_ref XB Hne (en - st) 0) by (rewrite HB; lia).
  rewrite skipn_O, take_per_column_cdist by exact Hne.
  unfold XB, en. rewrite !assign_chunk. reflexivity.
Qed.

Lemma path_errors_loop (xy_ref xy_actual : list (R * R)) :
  xy_ref <> [] ->
  forall T t,
    fold_left (PathError.path_errors_step xy_ref xy_actual)
      (map (fun k => k * PathError.chunk)%nat (seq t T))
      (Some (filled (fun q => Np.euclidean
                       (nth (PathError.nearest xy_ref q) xy_ref (0, 0)) q)
                    xy_actual (t * PathError.chunk),
             filled (PathError.nearest xy_ref) xy_actual (t * PathError.chunk)))
    = Some (filled (fun q => Np.euclidean
                      (nth (PathError.nearest xy_ref q) xy_ref (0, 0)) q)
                   xy_actual ((t + T) * PathError.chunk),
            filled (PathError.nearest xy_ref) xy_actual
                   ((t + T) * PathError.chunk)).
Proof.
  intros Hne. induction T as [|T' IH]; intros t.
  - rewrite Nat.add_0_r. reflexivity.
  - cbn [seq map fold_left].
    rewrite path_errors_step_filled by exact Hne.
    replace (t * PathError.chunk + PathError.chunk)%nat
      with (S t * PathError.chunk)%nat by (rewrite Nat.mul_succ_l; reflexivity).
    rewrite IH.
    replace (S t + T')%nat with (t + S T')%nat by lia. reflexivity.
Qed.

Lemma chunks_cover (n : nat) :
  (n <= (n + PathError.chunk - 1) / PathError.chunk * PathError.chunk)%nat.
Proof.
  assert (Hc : PathError.chunk <> 0%nat) by discriminate.
  pose proof (Nat.div_mod (n + PathError.chunk - 1) PathError.chunk Hc) as Hd.
  pose proof (Nat.mod_upper_bound (n + PathError.chunk - 1) PathError.chunk Hc).
  set (T := ((n + PathError.chunk - 1) / PathError.chunk)%nat) in *.
  rewrite (Nat.mul_comm T). lia.
Qed.

(** X17: with at least one reference point, [compute_path_errors] returns
    arrays with no [nan] left, one entry per followed point whatever the
    number of chunks of 1000: the index of the first reference point at
    minimal distance from the followed point, and that distance. *)
Theorem compute_path_errors_nearest (xy_ref xy_actual : list (R * R)) :
  xy_ref <> [] ->
  PathError.compute_path_errors xy_ref xy_actual
  = Some (map (fun q => Some (Np.euclidean
                 (nth (PathError.nearest xy_ref q) xy_ref (0, 0)) q))
              xy_actual,
          map (fun q => Some (PathError.nearest xy_ref q)) xy_actual)
  /\ forall q,
       (PathError.nearest xy_ref q < length xy_ref)%nat
       /\ (forall i, (i < length xy_ref)%nat ->
             Np.euclidean (nth (PathError.nearest xy_ref q) xy_ref (0, 0)) q
             <= Np.euclidean (nth i xy_ref (0, 0)) q)
       /\ (forall i, (i < PathError.nearest xy_ref q)%nat ->
             Np.euclidean (nth (PathError.nearest xy_ref q) xy_ref (0, 0)) q
             < Np.euclidean (nth i xy_ref (0, 0)) q).
Proof.
  intros Hne. split.
  - unfold PathError.compute_path_errors, Np.arange0.
    rewrite <- (filled_start
                  (fun q => Np.euclidean
                     (nth (PathError.nearest xy_ref q) xy_ref (0, 0)) q)
                  xy_actual).
    rewrite <- (filled_start (PathError.nearest xy_ref) xy_actual).
    rewrite <- (Nat.mul_0_l PathError.chunk) at 3 4.
    rewrite (path_errors_loop xy_ref xy_actual Hne), Nat.add_0_l.
    rewrite !filled_end by apply chunks_cover.
    rewrite !map_map. reflexivity.
  - intros q. destruct (nearest_first_min xy_ref q Hne) as (_ & H).
    exact H.
Qed.

Lemma compute_path_errors_nearest_witness :
  PathError.compute_path_errors [(0, 0); (1, 1)] [(3, 4)]
  = Some (map (fun q => Some (Np.euclidean
                 (nth (PathError.nearest [(0, 0); (1, 1)] q)
                      [(0, 0); (1, 1)] (0, 0)) q))
              [(3, 4)],
          map (fun q => Some (PathError.nearest [(0, 0); (1, 1)] q)) [(3, 4)]).
Proof.
  apply (compute_path_errors_nearest [(0, 0); (1, 1)] [(3, 4)]).
  discriminate.
Defined.

Lemma path_errors_failed (xy_ref xy_actual : list (R * R)) (l : list nat) :
  fold_left (PathError.path_errors_step xy_ref xy_actual) l None = None.
Proof. induction l as [|st tl IH]; [reflexivity | exact IH]. Qed.

(** X18: with no followed point [compute_path_errors] returns two empty
    arrays, even without reference points; with followed points but no
    reference point it fails in the first chunk, where [np.argmin] is
    asked for the minimum of an empty column. *)
Theorem compute_path_errors_empty (xy_ref xy_actual : list (R * R)) :
  PathError.compute_path_errors xy_ref [] = Some ([], [])
  /\ (xy_actual <> [] -> PathError.compute_path_errors [] xy_actual = None).
Proof.
  split.
  - unfold PathError.compute_path_errors, Np.arange0.
    simpl length. rewrite Nat.add_0_l, Nat.div_small; [reflexivity |].
    unfold PathError.chunk. lia.
  - intros Hne. unfold PathError.compute_path_errors, Np.arange0.
    set (n := length xy_actual).
    assert (Hn : (0 < n)%nat)
      by (unfold n; destruct xy_actual; [contradiction | simpl; lia]).
    assert (HT : (0 < (n + PathError.chunk - 1) / PathError.chunk)%nat).
    { apply Nat.div_str_pos. unfold PathError.chunk. lia. }
    destruct ((n + PathError.chunk - 1) / PathError.chunk)%nat as [|T'];
      [lia |].
    cbn [seq map fold_left].
    assert (Hstep : PathError.path_errors_step [] xy_actual
                      (Some (repeat None n, repeat None n))
                      (0 * PathError.chunk) = None).
    { unfold PathError.path_errors_step. rewrite Nat.mul_0_l, Nat.add_0_l.
      fold n.
      assert (Hk : exists k', (Nat.min n PathError.chunk - 0 = S k')%nat).
      { exists (Nat.min n PathError.chunk - 1)%nat.
        unfold PathError.chunk. lia. }
      destruct Hk as [k' ->]. reflexivity. }
    rewrite Hstep. apply path_errors_failed.
Qed.

Lemma compute_path_errors_empty_witness :
  PathError.compute_path_errors [] [(3, 4)] = None.
Proof.
  apply (compute_path_errors_empty [] [(3, 4)]). discriminate.
Defined.
